(** * The "I Feel Fine" feedback simulation of STFT_Spectrogram.py

    A shallow embedding of the notebook's three models (the [guitar] comb
    resonator with its lowpass, the [amplify] clipper, the [feedback]
    delay channel) and of the sample-by-sample loop that closes them.

    Numbers.  Every Python float is an exact rational ([Qc], canonical
    fractions, so equal numbers are equal terms); Python ints are [Z], with
    [%] as [Z.modulo] (both take the sign of the divisor).  Rounding of the
    floating-point hardware is therefore not part of the model; the outcome
    [NotFinite] marks the one place where numpy would leave the rationals
    (a float64 divided by zero gives inf or nan with a warning).

    Libraries.  [scipy.signal.butter] is an external design routine whose
    coefficients are irrational; it is a parameter of the model.
    [scipy.signal.lfilter] and [lfiltic] are modelled after their
    documentation (transposed direct form II). *)

From Stdlib Require Import ZArith QArith Qcanon Qround Lia Lqa.
From stdpp Require Import base list numbers.

Local Open Scope Z_scope.

(** ** Outcomes of Python code *)

Inductive error : Type :=
| ZeroDivisionError   (* int or float division by a Python zero *)
| ValueError          (* np.zeros of a negative length, scipy argument checks *)
| IndexError          (* numpy index out of bounds *)
| NotFinite.          (* numpy float64 / 0.0: inf or nan, outside the rationals *)

Inductive result (A : Type) : Type :=
| Ok (a : A)
| Err (e : error).
Arguments Ok {A} a.
Arguments Err {A} e.

(** The error monad, with stdpp's [x ← r; k] notation. *)
Global Instance result_ret : MRet result := fun A a => Ok a.
Global Instance result_bind : MBind result := fun A B k r =>
  match r with
  | Ok a => k a
  | Err e => Err e
  end.

Definition is_ok {A} (r : result A) : Prop := exists a, r = Ok a.

(** ** Numbers *)

Definition qz (n : Z) : Qc := Q2Qc (inject_Z n).
Definition qfrac (n : Z) (d : positive) : Qc := Q2Qc (n # d).

(** [int(np.ceil(q))] *)
Definition ceil (q : Qc) : Z := Qceiling q.

(** [int(np.round(q))]: numpy rounds halves to the even neighbour. *)
Definition round (q : Qc) : Z :=
  let f := Qfloor q in
  match (q - qz f ?= qfrac 1 2)%Qc with
  | Lt => f
  | Gt => f + 1
  | Eq => if Z.even f then f else f + 1
  end.


(** [r ** m] for a float [r] and an int [m], as an exact power.  A float
    power too large for a double raises OverflowError in Python (for
    0.9999 that takes an exponent below about -7.1e6); like all rounding,
    that limit of the floats is outside this model. *)
Definition pow (r : Qc) (m : Z) : Qc :=
  if 0 <=? m then (r ^ Z.to_nat m)%Qc else (/ (r ^ Z.to_nat (- m)))%Qc.

(** Python's true division [a / b]. *)
Definition pydiv (a b : Qc) : result Qc :=
  if decide (b = 0%Qc) then Err ZeroDivisionError else Ok (a / b)%Qc.

(** ** numpy arrays as lists *)

(** [np.zeros(n)] *)
Definition np_zeros (n : Z) : result (list Qc) :=
  if n <? 0 then Err ValueError else Ok (replicate (Z.to_nat n) 0%Qc).

(** Position denoted by the index [i] in an array of length [len]:
    negative indices count from the end, anything else is an IndexError. *)
Definition np_index (len : nat) (i : Z) : result nat :=
  if (0 <=? i) && (i <? Z.of_nat len) then Ok (Z.to_nat i)
  else if (- Z.of_nat len <=? i) && (i <? 0) then Ok (Z.to_nat (Z.of_nat len + i))
  else Err IndexError.

(** [a[i]] *)
Definition np_get (a : list Qc) (i : Z) : result Qc :=
  k ← np_index (length a) i;
  match a !! k with
  | Some v => Ok v
  | None => Err IndexError
  end.

(** [a[i] = v] *)
Definition np_set (a : list Qc) (i : Z) (v : Qc) : result (list Qc) :=
  k ← np_index (length a) i;
  Ok (<[k := v]> a).

(** Python's [a % b] on ints. *)
Definition pymod (a b : Z) : result Z :=
  if b =? 0 then Err ZeroDivisionError else Ok (a mod b).

(** Python's [min(a, b)]: the first argument unless the second is smaller. *)
Definition pymin (a b : Qc) : Qc := if decide (b < a)%Qc then b else a.

(** [for n in range(N): s = body(n, s)], stopping at the first exception. *)
Fixpoint for_range_from {S : Type} (start count : nat)
    (body : nat -> S -> result S) (s : S) : result S :=
  match count with
  | O => Ok s
  | Datatypes.S c => s' ← body start s; for_range_from (Datatypes.S start) c body s'
  end.

Definition for_range {S : Type} (N : nat) := @for_range_from S 0 N.

(** ** scipy.signal, after its documentation *)

Module signal.

(** Coefficient [k] of a filter polynomial, zero past its end. *)
Definition coef (c : list Qc) (k : nat) : Qc := default 0%Qc (c !! k).

(** Number of delay elements of the filter [b / a]. *)
Definition order (b a : list Qc) : nat := Nat.max (length a) (length b) - 1.

(** [lfiltic(b, a, [0])]: the filter state that follows an all-zero past. *)
Definition lfiltic (b a : list Qc) : list Qc := replicate (order b a) 0%Qc.

(** New delay line of the transposed direct form II, slots [i ..]. *)
Fixpoint shift (b a z : list Qc) (x y : Qc) (i count : nat) : list Qc :=
  match count with
  | O => []
  | S c =>
      (coef z (i + 1) + coef b (i + 1) * x - coef a (i + 1) * y)%Qc
        :: shift b a z x y (i + 1) c
  end.

(** [lfilter(b, a, [x], zi=z)] on one sample: the output sample and the
    final state.  The coefficients are normalised by [a[0]]. *)
Definition lfilter (b a : list Qc) (x : Qc) (z : list Qc)
    : result (Qc * list Qc) :=
  match a with
  | [] => Err ValueError
  | a0 :: _ =>
      if decide (a0 = 0%Qc) then Err ValueError
      else if decide (length z = order b a) then
        let b' := (fun c => c / a0)%Qc <$> b in
        let a' := (fun c => c / a0)%Qc <$> a in
        let y := (coef z 0 + coef b' 0 * x)%Qc in
        Ok (y, shift b' a' z x y 0 (order b a))
      else Err ValueError
  end.

End signal.

(** ** The guitar: comb filter followed by the Butterworth lowpass *)

Module guitar.

Record t : Type := mk {
  M : Z;             (* fundamental period in samples *)
  R : Qc;            (* decay factor *)
  RM : Qc;
  ybuf : list Qc;    (* output buffer (circular) *)
  iy : Z;            (* index into out buf *)
  xbuf : Qc;         (* input buffer (just one sample) *)
  bfb : list Qc;
  bfa : list Qc;
  bfs : list Qc      (* lowpass state carried between samples *)
}.

Section Design.

(** [signal.butter(order, Wn)]: the coefficient lists [(b, a)], or the
    exception it raises. *)
Variable butter : nat -> Qc -> result (list Qc * list Qc).

(** [guitar.__init__(self, pitch, fs)] *)
Definition init (pitch fs : Qc) : result t :=
  q ← pydiv fs pitch;
  let M := round q in
  let R := qfrac 9999 10000 in
  let RM := pow R M in
  ybuf ← np_zeros M;
  w ← pydiv (qz 5 * pitch) fs;
  '(b, a) ← butter 6 (pymin (qfrac 1 2) w);
  let bfb := (fun c => c * qz 1000)%Qc <$> b in
  Ok (mk M R RM ybuf 0 0%Qc bfb a (signal.lfiltic bfb a)).

End Design.

(** The comb filter lines of [play]'s loop body: the state with the
    buffer, index and stored input updated, and the comb output [t]. *)
Definition comb (self : t) (xn : Qc) : result (t * Qc) :=
  yb ← np_get (ybuf self) (iy self);
  let t := (xn - R self * xbuf self + RM self * yb)%Qc in
  ybuf' ← np_set (ybuf self) (iy self) t;
  iy' ← pymod (iy self + 1) (M self);
  Ok (mk (M self) (R self) (RM self) ybuf' iy' xn
         (bfb self) (bfa self) (bfs self), t).

(** One pass of [play]'s loop body at index [n]. *)
Definition play_body (x : list Qc) (n : nat) (st : t * list Qc)
    : result (t * list Qc) :=
  let '(self, y) := st in
  xn ← np_get x (Z.of_nat n);
  '(self, t) ← comb self xn;
  '(yn, zf) ← signal.lfilter (bfb self) (bfa self) t (bfs self);
  y ← np_set y (Z.of_nat n) yn;
  Ok (mk (M self) (R self) (RM self) (ybuf self) (iy self) (xbuf self)
         (bfb self) (bfa self) zf, y).

(** [guitar.play(self, x)]: the updated object and the array [y]. *)
Definition play (self : t) (x : list Qc) : result (t * list Qc) :=
  y ← np_zeros (Z.of_nat (length x));
  for_range (length x) (play_body x) (self, y).

End guitar.

(** ** The amplifier *)

Definition TH : Qc := qfrac 9 10.

(** [y[mask(y)] = v] *)
Definition mask_assign (mask : Qc -> bool) (v : Qc) (y : list Qc) : list Qc :=
  (fun e => if mask e then v else e) <$> y.

(** [amplify(x)] *)
Definition amplify (x : list Qc) : list Qc :=
  let y := x in
  let y := mask_assign (fun e => bool_decide (TH < e)%Qc) TH y in
  let y := mask_assign (fun e => bool_decide (e < - TH)%Qc) (- TH)%Qc y in
  y.

(** ** The acoustic feedback channel *)

Module feedback.

Definition SPEED_OF_SOUND : Qc := qz 343.

Record t : Type := mk {
  L : Z;
  xbuf : list Qc;    (* circular buffer *)
  ix : Z
}.

(** [feedback.__init__(self, max_distance_m, fs)] *)
Definition init (max_distance_m fs : Qc) : result t :=
  let L := ceil (max_distance_m / SPEED_OF_SOUND * fs)%Qc in
  xbuf ← np_zeros L;
  Ok (mk L xbuf 0).

(** The delay in samples computed by [get]; [fs] is the notebook's
    global variable, not an attribute of the object. *)
Definition delay (fs distance : Qc) : Z :=
  ceil (distance / SPEED_OF_SOUND * fs)%Qc.

(** [feedback.get(self, x, distance)], reading the global [fs]. *)
Definition get (fs : Qc) (self : t) (x distance : Qc) : result (t * Qc) :=
  let d := delay fs distance in
  xbuf' ← np_set (xbuf self) (ix self) x;
  j ← pymod (L self + ix self - d) (L self);
  x ← np_get xbuf' j;
  ix' ← pymod (ix self + 1) (L self);
  if decide (distance = 0%Qc) then Err NotFinite
  else Ok (mk (L self) xbuf' ix', (x / distance)%Qc).

End feedback.

(** ** The simulation loop *)

Record loop_state : Type := mk_loop {
  g : guitar.t;
  f : feedback.t;
  y : list Qc;
  x : list Qc
}.

(** [y[n] = a] for an array [a]: numpy accepts it only when [a] holds
    exactly one element. *)
Definition set_item_array (y : list Qc) (n : Z) (a : list Qc) : result (list Qc) :=
  match a with
  | [v] => np_set y n v
  | _ => Err ValueError
  end.

(** The distance of the notebook's loop at sample [n]:
    [START_DISTANCE if n < (1.5 * fs) else END_DISTANCE]. *)
Definition schedule (fs START_DISTANCE END_DISTANCE : Qc) (n : nat) : Qc :=
  if decide (qz (Z.of_nat n) < qfrac 3 2 * fs)%Qc
  then START_DISTANCE else END_DISTANCE.

Section Loop.

Variable fs : Qc.                 (* the global clock *)
Variable COUPLING_LOSS : Qc.
Variable distance : nat -> Qc.    (* the distance argument at sample n *)

(** The body of the final loop at sample [n]. *)
Definition loop_body (n : nat) (s : loop_state) : result loop_state :=
  '(g', out) ← guitar.play (g s) (x s);
  y' ← set_item_array (y s) (Z.of_nat n) (amplify out);
  yn ← np_get y' (Z.of_nat n);
  '(f', fed) ← feedback.get fs (f s) yn (distance n);
  Ok (mk_loop g' f' y' [(COUPLING_LOSS * fed)%Qc]).

(** [y = np.zeros(N); x = x0; for n in range(N): ...] for given objects
    [g] and [f]; the result is the final state, whose [y] is the output. *)
Definition simulate (g0 : guitar.t) (f0 : feedback.t) (x0 : list Qc) (N : Z)
    : result loop_state :=
  y0 ← np_zeros N;
  for_range (Z.to_nat N) loop_body (mk_loop g0 f0 y0 x0).

End Loop.


Example round_218 : round (qz 24000 / qz 110)%Qc = 218.
Proof. reflexivity. Qed.
Example round_half : round (qfrac 5 2) = 2 /\ round (qfrac 7 2) = 4.
Proof. split; reflexivity. Qed.
Example ceil_350 : ceil (qz 5 / qfrac 343 1 * qz 24000)%Qc = 350.
Proof. reflexivity. Qed.

(** ** Arrays by reference: [amplify] on a store *)

(** A store of numpy arrays; an array object is its position in the store. *)
Abbreviation store := (list (list Qc)).

(** [np.copy(x)]: a fresh array with the contents of [x]. *)
Definition np_copy (h : store) (x : nat) : option (store * nat) :=
  arr ← h !! x; Some (h ++ [arr], length h).

(** [y[mask(y)] = v] on the array object [y], in place. *)
Definition mask_assign_at (h : store) (y : nat) (mask : Qc -> bool) (v : Qc) : store :=
  alter (mask_assign mask v) y h.

(** [amplify(x)] on array objects: the new store and the returned object. *)
Definition amplify_ref (h : store) (x : nat) : option (store * nat) :=
  '(h, y) ← np_copy h x;
  let h := mask_assign_at h y (fun e => bool_decide (TH < e)%Qc) TH in
  let h := mask_assign_at h y (fun e => bool_decide (e < - TH)%Qc) (- TH)%Qc in
  Some (h, y).

(** ** The saturator of the specification *)

Definition Qcmin (a b : Qc) : Qc := if decide (a ≤ b)%Qc then a else b.
Definition Qcmax (a b : Qc) : Qc := if decide (a ≤ b)%Qc then b else a.

(** The contract's [clip(x, threshold) = max(−threshold, min(threshold, x))]. *)
Definition clip (threshold x : Qc) : Qc :=
  Qcmax (- threshold)%Qc (Qcmin threshold x).

(** * Properties *)

(** ** Order facts on the rationals *)

Lemma TH_pos : (0 < TH)%Qc.
Proof. by vm_compute. Qed.

Lemma TH_neg_lt : (- TH < TH)%Qc.
Proof. by vm_compute. Qed.

(** Order goals over [TH], [- TH] and variables, settled in [Q]. *)
Ltac qc_order :=
  unfold Qcle, Qclt in *;
  change (this (- TH)%Qc) with (- (9 # 10))%Q in *;
  change (this TH) with (9 # 10)%Q in *;
  lra.

Lemma clip_range (x : Qc) : (- TH ≤ clip TH x ≤ TH)%Qc.
Proof.
  unfold clip, Qcmax, Qcmin. repeat case_decide; split; qc_order.
Qed.

Lemma clip_id (x : Qc) : (- TH ≤ x ≤ TH)%Qc -> clip TH x = x.
Proof.
  intros [Hlo Hhi]. unfold clip, Qcmax, Qcmin.
  repeat case_decide; try done; apply Qc_is_canon; qc_order.
Qed.

Lemma clip_mono (u v : Qc) : (u ≤ v)%Qc -> (clip TH u ≤ clip TH v)%Qc.
Proof.
  intros Huv. unfold clip, Qcmax, Qcmin. repeat case_decide; qc_order.
Qed.

(** The two masked assignments of [amplify] on one element. *)
Definition amplify1 (e : Qc) : Qc :=
  let e := if bool_decide (TH < e)%Qc then TH else e in
  if bool_decide (e < - TH)%Qc then (- TH)%Qc else e.

Lemma amplify_fmap (x : list Qc) : amplify x = amplify1 <$> x.
Proof.
  unfold amplify, mask_assign. rewrite <- list_fmap_compose. done.
Qed.

Lemma amplify1_clip (e : Qc) : amplify1 e = clip TH e.
Proof.
  unfold amplify1, clip, Qcmax, Qcmin.
  repeat case_bool_decide; repeat case_decide; try done;
    apply Qc_is_canon; qc_order.
Qed.

Lemma amplify_ref_appends (h1 h2 : store) (x : list Qc) :
  amplify_ref (h1 ++ x :: h2) (length h1)
  = Some (h1 ++ x :: h2 ++ [amplify x], length (h1 ++ x :: h2)).
Proof.
  unfold amplify_ref, np_copy.
  rewrite list_lookup_middle by done. cbn.
  unfold mask_assign_at, amplify. f_equal. f_equal.
  set (h := h1 ++ x :: h2).
  replace (length h) with (length h + 0)%nat by lia.
  rewrite !alter_app_r. cbn. unfold h. by rewrite <- app_assoc.
Qed.

(** C5.  [amplify] is the contract's clip with threshold 0.9 on every
    element: it equals [max(−TH, min(TH, x))], so its values lie in
    [[−TH, TH]], elements already in that range are returned unchanged, and
    it is monotonic non-decreasing.  On array objects it works on a fresh
    copy: the store it leaves is the old store with the result appended, so
    the input array keeps its contents. *)
Theorem amplify_is_clip (x : list Qc) :
  amplify x = clip TH <$> x
  /\ Forall (fun v => (- TH ≤ v ≤ TH)%Qc) (amplify x)
  /\ (forall i v, x !! i = Some v -> (- TH ≤ v ≤ TH)%Qc -> amplify x !! i = Some v)
  /\ (forall x', Forall2 Qcle x x' -> Forall2 Qcle (amplify x) (amplify x'))
  /\ (forall h1 h2 : store,
        amplify_ref (h1 ++ x :: h2) (length h1)
        = Some (h1 ++ x :: h2 ++ [amplify x], length (h1 ++ x :: h2))).
Proof.
  assert (Hc : amplify x = clip TH <$> x).
  { rewrite amplify_fmap. apply list_fmap_ext. intros. apply amplify1_clip. }
  split_and!.
  - done.
  - rewrite Hc. apply Forall_fmap, Forall_forall. intros v _. apply clip_range.
  - intros i v Hi Hv. rewrite Hc, list_lookup_fmap, Hi. cbn. by rewrite clip_id.
  - intros x' Hx. rewrite !amplify_fmap. apply Forall2_fmap.
    revert Hx. apply Forall2_impl. intros u v Huv. cbn.
    rewrite !amplify1_clip. by apply clip_mono.
  - intros. apply amplify_ref_appends.
Qed.

(** ** The error monad, loops and arrays *)

Lemma bind_Ok {A B} (r : result A) (k : A -> result B) (b : B) :
  r ≫= k = Ok b -> exists a, r = Ok a /\ k a = Ok b.
Proof. destruct r as [a|e]; cbn; [eauto | discriminate]. Qed.

Lemma Ok_inj {A} (a b : A) : Ok a = Ok b -> a = b.
Proof. by intros [= ->]. Qed.

(** Invert a chain of binds that ends in [Ok]. *)
Ltac inv_ok H :=
  repeat match type of H with
  | _ ≫= _ = Ok _ =>
      let a := fresh "a" in let Ha := fresh "Ha" in
      apply bind_Ok in H as (a & Ha & H)
  | (let '(_, _) := ?p in _) = Ok _ => destruct p
  | (if decide ?P then _ else _) = Ok _ => destruct (decide P); [try discriminate H | try discriminate H]
  | Ok _ = Ok _ => apply Ok_inj in H
  end.

Lemma bind_Ok_l {A B} (a : A) (k : A -> result B) : Ok a ≫= k = k a.
Proof. done. Qed.

Lemma bind_Err_l {A B} (e : error) (k : A -> result B) : Err e ≫= k = Err e.
Proof. done. Qed.

Lemma for_range_from_S {S} (body : nat -> S -> result S) count start s :
  for_range_from start (Datatypes.S count) body s
  = body start s ≫= for_range_from (Datatypes.S start) count body.
Proof. done. Qed.

Lemma for_range_from_snoc {S} (body : nat -> S -> result S) count start s :
  for_range_from start (Datatypes.S count) body s
  = for_range_from start count body s ≫= body (start + count)%nat.
Proof.
  revert start s. induction count as [|c IH]; intros start s.
  - cbn. rewrite Nat.add_0_r. by destruct (body start s).
  - rewrite for_range_from_S, (for_range_from_S _ c).
    destruct (body start s) as [s'|e]; [|done].
    rewrite !bind_Ok_l, IH.
    by replace (Datatypes.S start + c)%nat with (start + Datatypes.S c)%nat by lia.
Qed.

Lemma for_range_snoc {S} (body : nat -> S -> result S) N s :
  for_range (Datatypes.S N) body s = for_range N body s ≫= body N.
Proof. unfold for_range. by rewrite for_range_from_snoc. Qed.

(** A loop that completed [N] passes completed every shorter prefix. *)
Lemma for_range_prefix {S} (body : nat -> S -> result S) N n s s' :
  for_range N body s = Ok s' -> (n <= N)%nat ->
  exists sn, for_range n body s = Ok sn.
Proof.
  revert s'. induction N as [|N IH]; intros s' Hrun Hn.
  - replace n with 0%nat by lia. eauto.
  - destruct (decide (n = Datatypes.S N)) as [->|]; [eauto|].
    rewrite for_range_snoc in Hrun. apply bind_Ok in Hrun as (sN & HN & _).
    eapply IH; [done | lia].
Qed.

(** The loop body depends on the pass number only below [N]. *)
Lemma for_range_ext {S} (body body' : nat -> S -> result S) N s :
  (forall n st, (n < N)%nat -> body n st = body' n st) ->
  for_range N body s = for_range N body' s.
Proof.
  induction N as [|N IH]; intros Hb; [done|].
  rewrite !for_range_snoc, IH by (intros; apply Hb; lia).
  destruct (for_range N body' s); cbn; [apply Hb; lia | done].
Qed.

Lemma np_index_in (len : nat) (i : Z) :
  0 <= i < Z.of_nat len -> np_index len i = Ok (Z.to_nat i).
Proof.
  intros Hi. unfold np_index.
  by rewrite (proj2 (Z.leb_le _ _)), (proj2 (Z.ltb_lt _ _)) by lia.
Qed.

Lemma np_index_bound (len : nat) (i : Z) (k : nat) :
  np_index len i = Ok k -> (k < len)%nat.
Proof.
  unfold np_index. repeat case_match; intros [= <-]; lia.
Qed.

Lemma np_get_in (a : list Qc) (i : Z) :
  0 <= i < Z.of_nat (length a) ->
  exists v, a !! Z.to_nat i = Some v /\ np_get a i = Ok v.
Proof.
  intros Hi. unfold np_get. rewrite np_index_in by done. cbn.
  destruct (lookup_lt_is_Some_2 a (Z.to_nat i)) as [v Hv]; [lia|].
  exists v. by rewrite Hv.
Qed.

Lemma np_set_in (a : list Qc) (i : Z) (v : Qc) :
  0 <= i < Z.of_nat (length a) -> np_set a i v = Ok (<[Z.to_nat i := v]> a).
Proof. intros Hi. unfold np_set. by rewrite np_index_in. Qed.

Lemma np_set_length (a a' : list Qc) (i : Z) (v : Qc) :
  np_set a i v = Ok a' -> length a' = length a.
Proof.
  unfold np_set. intros H. inv_ok H. subst. apply length_insert.
Qed.

Lemma np_set_nonempty (a a' : list Qc) (i : Z) (v : Qc) :
  np_set a i v = Ok a' -> (0 < length a)%nat.
Proof.
  unfold np_set. intros H. inv_ok H. apply np_index_bound in Ha. lia.
Qed.

Lemma np_zeros_ok (n : Z) :
  0 <= n -> np_zeros n = Ok (replicate (Z.to_nat n) 0%Qc).
Proof. intros Hn. unfold np_zeros. by rewrite (proj2 (Z.ltb_ge _ _)). Qed.

Lemma np_zeros_inv (n : Z) (a : list Qc) :
  np_zeros n = Ok a -> 0 <= n /\ a = replicate (Z.to_nat n) 0%Qc.
Proof.
  unfold np_zeros. destruct (Z.ltb_spec n 0); [done|]. intros [= <-]. by split.
Qed.

Lemma pymod_ok (a b : Z) : b <> 0 -> pymod a b = Ok (a mod b).
Proof. intros Hb. unfold pymod. by rewrite (proj2 (Z.eqb_neq _ _)). Qed.

Lemma pymod_inv (a b r : Z) : pymod a b = Ok r -> b <> 0 /\ r = a mod b.
Proof. unfold pymod. case_match; [done|]. intros [= <-]. lia. Qed.

(** ** Circular buffers *)

(** Sample [k] of a finite signal, zero before its start and past its end. *)
Definition ext (xs : list Qc) (k : Z) : Qc :=
  if k <? 0 then 0%Qc else default 0%Qc (xs !! Z.to_nat k).

(** A circular buffer of length [L] whose write position is [m mod L] holds
    the last [L] samples of the signal [sig] written before time [m]. *)
Definition ring_inv (L : Z) (sig : Z -> Qc) (m : Z) (buf : list Qc) : Prop :=
  length buf = Z.to_nat L /\
  forall i, 1 <= i <= L -> buf !! Z.to_nat ((m - i) mod L) = Some (sig (m - i)).

Lemma mod_shift_ne (L m j : Z) :
  0 < L -> 0 < j < L -> (m - j) mod L <> m mod L.
Proof.
  intros HL Hj Heq.
  assert (Hz : j mod L = 0).
  { replace j with (m - (m - j)) by lia.
    rewrite Zminus_mod, Heq, Z.sub_diag. by apply Z.mod_0_l, Z.neq_sym, Z.lt_neq. }
  rewrite Z.mod_small in Hz; lia.
Qed.

Lemma ring_init (L : Z) (sig : Z -> Qc) :
  0 < L -> (forall k, k < 0 -> sig k = 0%Qc) ->
  ring_inv L sig 0 (replicate (Z.to_nat L) 0%Qc).
Proof.
  intros HL Hsig. split; [apply length_replicate|].
  intros i Hi. rewrite Hsig by lia. apply lookup_replicate_2.
  pose proof (Z.mod_pos_bound (0 - i) L HL). lia.
Qed.

Lemma ring_write (L : Z) (sig sig' : Z -> Qc) (m : Z) (buf : list Qc) :
  0 < L -> ring_inv L sig m buf ->
  (forall k, k < m -> sig' k = sig k) ->
  ring_inv L sig' (m + 1) (<[Z.to_nat (m mod L) := sig' m]> buf).
Proof.
  intros HL [Hlen Hbuf] Hsig. split; [by rewrite length_insert|].
  intros i Hi. pose proof (Z.mod_pos_bound m L HL) as Hm.
  destruct (decide (i = 1)) as [->|Hne].
  - replace (m + 1 - 1) with m by lia.
    apply list_lookup_insert_eq. lia.
  - pose proof (Z.mod_pos_bound (m + 1 - i) L HL) as Hmi.
    rewrite list_lookup_insert_ne.
    + replace (m + 1 - i) with (m - (i - 1)) by lia.
      rewrite Hsig by lia. apply Hbuf. lia.
    + intros Heq. apply (mod_shift_ne L m (i - 1)); [lia..|].
      replace (m - (i - 1)) with (m + 1 - i) by lia. lia.
Qed.

Lemma ring_read (L : Z) (sig : Z -> Qc) (m i : Z) (buf : list Qc) :
  ring_inv L sig m buf -> 1 <= i <= L ->
  buf !! Z.to_nat ((m - i) mod L) = Some (sig (m - i)).
Proof. intros [_ H]. apply H. Qed.

Lemma ext_app_l (xs ys : list Qc) (k : Z) :
  k < Z.of_nat (length xs) -> ext (xs ++ ys) k = ext xs k.
Proof.
  intros Hk. unfold ext. destruct (Z.ltb_spec k 0); [done|].
  by rewrite lookup_app_l by lia.
Qed.

Lemma ext_snoc (xs : list Qc) (v : Qc) :
  ext (xs ++ [v]) (Z.of_nat (length xs)) = v.
Proof.
  unfold ext. destruct (Z.ltb_spec (Z.of_nat (length xs)) 0); [lia|].
  rewrite Nat2Z.id, lookup_app_r, Nat.sub_diag by lia. done.
Qed.

Lemma ext_neg (xs : list Qc) (k : Z) : k < 0 -> ext xs k = 0%Qc.
Proof. intros Hk. unfold ext. by destruct (Z.ltb_spec k 0); [|lia]. Qed.

Lemma ext_lookup (xs : list Qc) (n : nat) (v : Qc) :
  xs !! n = Some v -> ext xs (Z.of_nat n) = v.
Proof.
  intros Hn. unfold ext. destruct (Z.ltb_spec (Z.of_nat n) 0); [lia|].
  by rewrite Nat2Z.id, Hn.
Qed.

(** ** The feedback channel *)

(** A session of [get] calls, each with its sample and its distance. *)
Fixpoint get_seq (fs : Qc) (self : feedback.t) (calls : list (Qc * Qc))
    : result (feedback.t * list Qc) :=
  match calls with
  | [] => Ok (self, [])
  | (x, distance) :: calls =>
      '(self, v) ← feedback.get fs self x distance;
      '(self, vs) ← get_seq fs self calls;
      Ok (self, v :: vs)
  end.

(** The state of a channel whose buffer was allocated with [L ≥ 1] slots. *)
Definition feedback_wf (self : feedback.t) : Prop :=
  0 < feedback.L self
  /\ length (feedback.xbuf self) = Z.to_nat (feedback.L self)
  /\ 0 <= feedback.ix self < feedback.L self.

Lemma feedback_init_inv (max_distance_m fs : Qc) (f0 : feedback.t) :
  feedback.init max_distance_m fs = Ok f0 ->
  feedback.L f0 = ceil (max_distance_m / feedback.SPEED_OF_SOUND * fs)%Qc
  /\ 0 <= feedback.L f0
  /\ feedback.xbuf f0 = replicate (Z.to_nat (feedback.L f0)) 0%Qc
  /\ feedback.ix f0 = 0.
Proof.
  unfold feedback.init. intros H. inv_ok H.
  apply np_zeros_inv in Ha as [Hn ->]. by subst.
Qed.

Lemma feedback_init_wf (max_distance_m fs : Qc) (f0 : feedback.t) :
  feedback.init max_distance_m fs = Ok f0 -> 1 <= feedback.L f0 -> feedback_wf f0.
Proof.
  intros (_ & _ & Hbuf & Hix)%feedback_init_inv HL. unfold feedback_wf.
  rewrite Hbuf, Hix, length_replicate. lia.
Qed.

(** What [get] does on a well-formed channel, whatever the delay is. *)
Lemma feedback_get_spec (fs : Qc) (self : feedback.t) (x distance : Qc) :
  feedback_wf self -> distance <> 0%Qc ->
  let xbuf' := <[Z.to_nat (feedback.ix self) := x]> (feedback.xbuf self) in
  let j := (feedback.L self + feedback.ix self - feedback.delay fs distance)
             mod feedback.L self in
  0 <= j < feedback.L self /\
  exists v, xbuf' !! Z.to_nat j = Some v /\
    feedback.get fs self x distance
    = Ok (feedback.mk (feedback.L self) xbuf'
            ((feedback.ix self + 1) mod feedback.L self), (v / distance)%Qc).
Proof.
  intros (HL & Hlen & Hix) Hd xbuf' j.
  assert (Hj : 0 <= j < feedback.L self) by (by apply Z.mod_pos_bound).
  split; [done|].
  destruct (np_get_in xbuf' j) as (v & Hv & Hget).
  { unfold xbuf'. rewrite length_insert. lia. }
  exists v. split; [done|]. unfold feedback.get.
  rewrite np_set_in, !pymod_ok by lia. rewrite !bind_Ok_l.
  fold xbuf' j. rewrite Hget, !bind_Ok_l. by rewrite decide_False.
Qed.

(** What a successful [get] tells about the channel it ran on. *)
Lemma feedback_get_inv (fs : Qc) (self self' : feedback.t) (x distance v : Qc) :
  feedback.get fs self x distance = Ok (self', v) ->
  feedback.L self <> 0 /\ (0 < length (feedback.xbuf self))%nat
  /\ distance <> 0%Qc
  /\ feedback.L self' = feedback.L self
  /\ length (feedback.xbuf self') = length (feedback.xbuf self)
  /\ feedback.ix self' = (feedback.ix self + 1) mod feedback.L self.
Proof.
  unfold feedback.get. intros H. inv_ok H.
  apply pymod_inv in Ha2 as [HL ->].
  pose proof (np_set_nonempty _ _ _ _ Ha).
  apply np_set_length in Ha.
  injection H as <- <-. cbn. done.
Qed.

Lemma feedback_get_wf (fs : Qc) (self self' : feedback.t) (x distance v : Qc) :
  feedback.get fs self x distance = Ok (self', v) ->
  0 <= feedback.L self ->
  length (feedback.xbuf self) = Z.to_nat (feedback.L self) ->
  feedback_wf self'.
Proof.
  intros (HL & Hne & _ & HL' & Hlen' & Hix')%feedback_get_inv HL0 Hlen.
  unfold feedback_wf. rewrite HL', Hlen', Hix'.
  split; [lia|]. split; [done|]. apply Z.mod_pos_bound. lia.
Qed.

Lemma get_seq_wf (fs : Qc) (calls : list (Qc * Qc)) (self self' : feedback.t)
    (vs : list Qc) :
  get_seq fs self calls = Ok (self', vs) ->
  0 <= feedback.L self ->
  length (feedback.xbuf self) = Z.to_nat (feedback.L self) ->
  feedback.ix self = 0 ->
  1 <= feedback.L self \/ calls <> [] ->
  feedback_wf self' /\ feedback.L self' = feedback.L self.
Proof.
  assert (Hwf : forall calls self self' vs,
    get_seq fs self calls = Ok (self', vs) -> feedback_wf self ->
    feedback_wf self' /\ feedback.L self' = feedback.L self).
  { clear. induction calls as [|[x d] calls IH]; intros self self' vs Hrun Hwf.
    - by injection Hrun as <- <-.
    - cbn in Hrun. inv_ok Hrun. injection Hrun as <- <-.
      destruct Hwf as (HL & Hlen & _).
      pose proof (feedback_get_inv _ _ _ _ _ _ Ha) as (_ & _ & _ & HL' & _).
      apply feedback_get_wf in Ha; [|lia|done].
      destruct (IH _ _ _ Ha0 Ha) as [? ?]. split; [done|congruence]. }
  intros Hrun HL Hlen Hix [H1|Hne].
  - eapply Hwf; [done|]. unfold feedback_wf. lia.
  - destruct calls as [|[x d] calls]; [done|].
    cbn in Hrun. inv_ok Hrun. injection Hrun as <- <-.
    pose proof (feedback_get_inv _ _ _ _ _ _ Ha) as (_ & _ & _ & HL' & _).
    apply feedback_get_wf in Ha; [|lia|done].
    destruct (Hwf _ _ _ _ Ha0 Ha) as [? ?]. split; [done|congruence].
Qed.

(** The channel built by [feedback(1, 24000)]: 70 slots. *)
Definition channel_1m : feedback.t := feedback.mk 70 (replicate 70 0%Qc) 0.

Lemma channel_1m_init : feedback.init (qz 1) (qz 24000) = Ok channel_1m.
Proof. by vm_compute. Qed.

Lemma channel_1m_wf : feedback_wf channel_1m.
Proof. unfold feedback_wf, channel_1m. cbn [feedback.L feedback.xbuf feedback.ix].
  rewrite length_replicate. lia. Qed.

Lemma qz_neq_0 (n : Z) : n <> 0 -> qz n <> 0%Qc.
Proof.
  intros Hn Heq. apply (f_equal this) in Heq. cbn in Heq.
  apply Qred_eq_iff in Heq. unfold Qeq in Heq. cbn in Heq. lia.
Qed.

(** C3, as stated, fails: the channel of [feedback(1, 24000)] has 70 slots,
    the distance 1000 asks for a delay of 69971 samples, and [get] returns
    (the silent slot 29, divided by 1000) instead of failing. *)
Lemma get_beyond_capacity_returns :
  exists f1 v,
    feedback.delay (qz 24000) (qz 1000) = 69971
    /\ ~ (0 <= feedback.delay (qz 24000) (qz 1000) < feedback.L channel_1m)
    /\ (feedback.L channel_1m + feedback.ix channel_1m
          - feedback.delay (qz 24000) (qz 1000)) mod feedback.L channel_1m = 29
    /\ feedback.get (qz 24000) channel_1m 1%Qc (qz 1000) = Ok (f1, v)
    /\ v = 0%Qc.
Proof.
  eexists _, _. split; [reflexivity|].
  split; [intros [_ H]; vm_compute in H; discriminate H|].
  split; [reflexivity|]. split; [vm_compute; reflexivity|].
  by apply Qc_is_canon.
Qed.

(** C3, amended.  [get] has no range check on the delay: on a channel whose
    buffer has [L ≥ 1] slots and for a nonzero distance it returns for every
    delay [d], with the sample found at slot [(L + ix − d) mod L] (a slot of
    the buffer, after [x] was written at [ix]) divided by the distance. *)
Theorem get_wraps_any_delay (fs : Qc) (self : feedback.t) (x distance : Qc) :
  feedback_wf self -> distance <> 0%Qc ->
  let xbuf' := <[Z.to_nat (feedback.ix self) := x]> (feedback.xbuf self) in
  let j := (feedback.L self + feedback.ix self - feedback.delay fs distance)
             mod feedback.L self in
  0 <= j < feedback.L self /\
  exists self' v,
    xbuf' !! Z.to_nat j = Some v
    /\ feedback.get fs self x distance = Ok (self', (v / distance)%Qc).
Proof.
  intros Hwf Hd xbuf' j.
  destruct (feedback_get_spec fs self x distance Hwf Hd) as (Hj & v & Hv & Hget).
  split; [done|]. eauto.
Qed.

Lemma get_wraps_any_delay_witness :
  feedback_wf channel_1m /\ qz 1000 <> 0%Qc /\
  exists self' v,
    (<[0%nat := 1%Qc]> (replicate 70 0%Qc) : list Qc) !! 29%nat = Some v
    /\ feedback.get (qz 24000) channel_1m 1%Qc (qz 1000)
       = Ok (self', (v / qz 1000)%Qc).
Proof.
  split; [exact channel_1m_wf|]. split; [by apply qz_neq_0|].
  exact (proj2 (get_wraps_any_delay (qz 24000) channel_1m 1%Qc (qz 1000)
                  channel_1m_wf (qz_neq_0 1000 ltac:(done)))).
Defined.

(** The slot read by [get] at time [m], for a write index [m mod L]. *)
Lemma read_slot (L m d : Z) :
  0 < L -> (L + m mod L - d) mod L = (m - d) mod L.
Proof.
  intros HL.
  replace (L + m mod L - d) with (m - d + (1 - m / L) * L)
    by (pose proof (Z.div_mod m L); nia).
  apply Z.mod_add. lia.
Qed.

(** A channel held at one distance is a delay line: fed the samples of
    [sig] from time [m] on, it returns [sig] delayed by [d] samples and
    divided by the distance, as long as [0 ≤ d < L]. *)
Lemma get_seq_delay_line (fs distance : Qc) (sig : Z -> Qc) (xs : list Qc) :
  forall (m : Z) (self : feedback.t),
    0 <= m -> feedback_wf self -> distance <> 0%Qc ->
    0 <= feedback.delay fs distance < feedback.L self ->
    feedback.ix self = m mod feedback.L self ->
    ring_inv (feedback.L self) sig m (feedback.xbuf self) ->
    (forall k v, xs !! k = Some v -> sig (m + Z.of_nat k) = v) ->
    exists self' ys,
      get_seq fs self ((fun x => (x, distance)) <$> xs) = Ok (self', ys)
      /\ length ys = length xs
      /\ forall k, (k < length xs)%nat ->
           ys !! k = Some (sig (m + Z.of_nat k - feedback.delay fs distance)%Z
                           / distance)%Qc.
Proof.
  induction xs as [|x xs IH]; intros m self Hm Hwf Hd Hdel Hix Hring Hsig.
  - exists self, []. cbn. split_and!; [done..|]. intros k Hk. lia.
  - pose proof Hwf as (HL & Hlen & Hixr).
    destruct (feedback_get_spec fs self x distance Hwf Hd)
      as (Hj & v & Hv & Hget).
    set (self1 := feedback.mk (feedback.L self)
                    (<[Z.to_nat (feedback.ix self) := x]> (feedback.xbuf self))
                    ((feedback.ix self + 1) mod feedback.L self)) in *.
    assert (Hx : sig m = x).
    { rewrite <- (Hsig 0%nat x) by done. f_equal. lia. }
    assert (Hring1 : ring_inv (feedback.L self1) sig (m + 1) (feedback.xbuf self1)).
    { cbn. rewrite Hix, <- Hx. by apply (ring_write _ sig sig). }
    assert (Hv' : v = sig (m - feedback.delay fs distance)).
    { rewrite Hix, read_slot in Hv by done.
      pose proof (ring_read _ _ _ (feedback.delay fs distance + 1) _ Hring1) as Hr.
      cbn in Hr. rewrite Hix in Hr.
      replace (m + 1 - (feedback.delay fs distance + 1))
        with (m - feedback.delay fs distance) in Hr by lia.
      rewrite Hr in Hv by lia. by injection Hv. }
    destruct (IH (m + 1) self1) as (self' & ys & Hrun & Hylen & Hys).
    + lia.
    + unfold feedback_wf. cbn. rewrite length_insert.
      split; [done|]. split; [done|]. by apply Z.mod_pos_bound.
    + done.
    + done.
    + cbn. rewrite Hix, Zplus_mod_idemp_l. done.
    + done.
    + intros k w Hk. rewrite <- (Hsig (S k) w) by done. f_equal. lia.
    + exists self', ((v / distance)%Qc :: ys). cbn.
      rewrite Hget, bind_Ok_l. cbn. rewrite Hrun, bind_Ok_l. cbn.
      split_and!; [done|by rewrite Hylen|].
      intros [|k] Hk; cbn.
      * rewrite Hv'. do 3 f_equal. lia.
      * rewrite Hys by lia. do 3 f_equal. lia.
Qed.

(** A single impulse [a] at time [n], zeros before and for [k] samples after. *)
Definition impulse (n : nat) (a : Qc) (k : nat) : list Qc :=
  replicate n 0%Qc ++ a :: replicate k 0%Qc.

Lemma ext_impulse (n k : nat) (a : Qc) (j : Z) :
  ext (impulse n a k) j = if decide (j = Z.of_nat n) then a else 0%Qc.
Proof.
  unfold ext, impulse. destruct (Z.ltb_spec j 0) as [Hj|Hj].
  - by rewrite decide_False by lia.
  - destruct (decide (j = Z.of_nat n)) as [->|Hne].
    + by rewrite Nat2Z.id, list_lookup_middle by (by rewrite length_replicate).
    + destruct (decide (Z.to_nat j < n)%nat) as [Hlt|Hge].
      * rewrite lookup_app_l by (by rewrite length_replicate).
        by rewrite lookup_replicate_2.
      * rewrite lookup_app_r by (rewrite length_replicate; lia).
        rewrite length_replicate.
        destruct (Z.to_nat j - n)%nat as [|i] eqn:Hi; [lia|]. cbn.
        destruct (replicate k 0%Qc !! i) as [v|] eqn:Hv; [|done].
        by apply lookup_replicate in Hv as [-> _].
Qed.

Lemma Qcdiv_0_l (d : Qc) : (0 / d)%Qc = 0%Qc.
Proof. unfold Qcdiv. apply Qcmult_0_l. Qed.

(** C6, as stated, fails at the notebook's own END_DISTANCE: at 0.05 m and
    24000 Hz the rounded delay is 3 samples, yet the impulse pushed at time
    0 comes out (as 1 / 0.05 = 20) at time 4, the ceiling, and time 3 is
    silent. *)
Lemma impulse_not_at_rounded_delay :
  exists f0 f' ys,
    feedback.init (qz 5) (qz 24000) = Ok f0
    /\ round (qfrac 1 20 / qz 343 * qz 24000)%Qc = 3
    /\ feedback.delay (qz 24000) (qfrac 1 20) = 4
    /\ get_seq (qz 24000) f0 ((fun x => (x, qfrac 1 20)) <$> impulse 0 1%Qc 5)
       = Ok (f', ys)
    /\ this <$> ys = [0; 0; 0; 0; 20; 0]%Q.
Proof.
  eexists _, _, _. split; [vm_compute; reflexivity|].
  split; [reflexivity|]. split; [reflexivity|].
  split; [vm_compute; reflexivity|]. reflexivity.
Qed.

(** C6, amended.  For a channel driven at a fixed nonzero distance whose
    delay [d = ceil(distance / 343 * fs)] (computed at each call, [fs] being
    the global clock) satisfies [0 ≤ d < L], an impulse pushed at time [n]
    among zeros comes out divided by the distance at time [n + d], once, and
    every other output is zero. *)
Theorem impulse_delayed_by_ceil (max_distance_m fs_ctor fs distance a : Qc)
    (n k : nat) (f0 : feedback.t) :
  feedback.init max_distance_m fs_ctor = Ok f0 ->
  distance <> 0%Qc ->
  0 <= feedback.delay fs distance < feedback.L f0 ->
  feedback.delay fs distance = ceil (distance / qz 343 * fs)%Qc
  /\ exists f' ys,
       get_seq fs f0 ((fun x => (x, distance)) <$> impulse n a k) = Ok (f', ys)
       /\ length ys = (n + 1 + k)%nat
       /\ forall m, (m < n + 1 + k)%nat ->
            ys !! m = Some (if decide (Z.of_nat m = Z.of_nat n + feedback.delay fs distance)
                            then (a / distance)%Qc else 0%Qc).
Proof.
  intros Hinit Hd Hdel. split; [done|].
  pose proof (feedback_init_inv _ _ _ Hinit) as (_ & _ & Hbuf & Hix).
  assert (Hwf : feedback_wf f0) by (apply (feedback_init_wf _ _ _ Hinit); lia).
  assert (Hlen : length (impulse n a k) = (n + 1 + k)%nat).
  { unfold impulse. rewrite length_app, !length_replicate. cbn.
    rewrite length_replicate. lia. }
  destruct (get_seq_delay_line fs distance (ext (impulse n a k)) (impulse n a k)
              0 f0) as (f' & ys & Hrun & Hylen & Hys); try done.
  - rewrite Hbuf. apply ring_init; [by destruct Hwf|]. apply ext_neg.
  - intros j v Hj. by apply ext_lookup.
  - exists f', ys. rewrite Hrun, Hylen, Hlen. split_and!; [done..|].
    intros m Hm. rewrite Hys by lia. f_equal.
    rewrite ext_impulse. repeat case_decide; try lia; [done|apply Qcdiv_0_l].
Qed.

Lemma impulse_delayed_by_ceil_witness :
  feedback.init (qz 5) (qz 24000) = Ok (feedback.mk 350 (replicate 350 0%Qc) 0)
  /\ qfrac 1 20 <> 0%Qc
  /\ 0 <= feedback.delay (qz 24000) (qfrac 1 20) < 350
  /\ exists f' ys,
       get_seq (qz 24000) (feedback.mk 350 (replicate 350 0%Qc) 0)
         ((fun x => (x, qfrac 1 20)) <$> impulse 2 1%Qc 6) = Ok (f', ys)
       /\ length ys = 9%nat
       /\ forall m, (m < 9)%nat ->
            ys !! m = Some (if decide (Z.of_nat m = 2 + feedback.delay (qz 24000) (qfrac 1 20))
                            then (1 / qfrac 1 20)%Qc else 0%Qc).
Proof.
  assert (H1 : feedback.init (qz 5) (qz 24000)
               = Ok (feedback.mk 350 (replicate 350 0%Qc) 0)) by (by vm_compute).
  assert (H2 : qfrac 1 20 <> 0%Qc) by (by vm_compute).
  assert (H3 : 0 <= feedback.delay (qz 24000) (qfrac 1 20) < 350) by (by vm_compute).
  split; [exact H1|]. split; [exact H2|]. split; [exact H3|].
  exact (proj2 (impulse_delayed_by_ceil (qz 5) (qz 24000) (qz 24000) (qfrac 1 20)
                  1%Qc 2 6 _ H1 H2 H3)).
Defined.

(** The contract's delay for a channel built at the rate [fs_ctor]. *)
Definition contract_delay (fs_ctor distance : Qc) : Z :=
  ceil (distance / qz 343 * fs_ctor)%Qc.

(** Rewrite order and ring goals over [Qc] into [Q]. *)
Ltac qc_to_q :=
  unfold Qcle, Qclt, Qcminus, Qcplus, Qcopp, Qcmult, Q2Qc in *;
  cbn [this] in *; rewrite ?Qred_correct in *.

Lemma Qcminus_pos (a b : Qc) : (b < a)%Qc -> (0 < a - b)%Qc.
Proof. intros H. qc_to_q. lra. Qed.

(** Two numbers one apart have different ceilings. *)
Lemma ceil_gap (a b : Qc) : (a - b = 1)%Qc -> ceil a <> ceil b.
Proof.
  intros H Heq. unfold ceil in Heq.
  assert (a = (b + 1)%Qc) as Ha by (rewrite <- H; ring).
  assert (Hab : (this a == this b + 1)%Q).
  { rewrite Ha. unfold Qcplus, Q2Qc. cbn [this]. by rewrite !Qred_correct. }
  pose proof (Qle_ceiling (this a)) as Hle.
  pose proof (Qceiling_lt (this b)) as Hlt.
  rewrite Heq in Hle. unfold Z.sub in Hlt.
  rewrite inject_Z_plus, inject_Z_opp in Hlt.
  change (inject_Z 1) with 1%Q in Hlt. lra.
Qed.

(** A number at least one above another has a larger ceiling. *)
Lemma ceil_gap_lt (a b : Qc) : (1 ≤ a - b)%Qc -> ceil b < ceil a.
Proof.
  intros H. unfold ceil.
  pose proof (Qle_ceiling (this a)) as Hle.
  pose proof (Qceiling_lt (this b)) as Hlt.
  destruct (Z_lt_le_dec (Qceiling (this b)) (Qceiling (this a))) as [|Hge]; [done|].
  exfalso. unfold Z.sub in Hlt. rewrite inject_Z_plus, inject_Z_opp in Hlt.
  change (inject_Z 1) with 1%Q in Hlt. rewrite Zle_Qle in Hge.
  qc_to_q. change (Qred 1) with 1%Q in H. lra.
Qed.

(** If the two rates differ, some positive distance tells them apart. *)
Lemma delay_disagrees (fs_ctor fs : Qc) :
  fs_ctor <> fs ->
  exists distance, (0 < distance)%Qc
    /\ feedback.delay fs distance <> contract_delay fs_ctor distance.
Proof.
  intros Hne. unfold feedback.delay, contract_delay, feedback.SPEED_OF_SOUND.
  assert (H343 : (0 < qz 343)%Qc) by (by vm_compute).
  destruct (Qclt_le_dec fs_ctor fs) as [Hlt|Hle].
  - pose proof (Qcminus_pos _ _ Hlt) as Hpos.
    exists (qz 343 / (fs - fs_ctor))%Qc. split.
    + apply Qcmult_pos_pos; [done|by apply Qcinv_pos].
    + apply ceil_gap. field. split.
      * intros H0. rewrite H0 in Hpos. by apply Qclt_not_eq in Hpos.
      * by apply qz_neq_0.
  - assert (Hlt : (fs < fs_ctor)%Qc).
    { apply Qcnot_le_lt. intros Hge. apply Hne. by apply Qcle_antisym. }
    pose proof (Qcminus_pos _ _ Hlt) as Hpos.
    exists (qz 343 / (fs_ctor - fs))%Qc. split.
    + apply Qcmult_pos_pos; [done|by apply Qcinv_pos].
    + intros Heq. symmetry in Heq. revert Heq. apply ceil_gap. field. split.
      * intros H0. rewrite H0 in Hpos. by apply Qclt_not_eq in Hpos.
      * by apply qz_neq_0.
Qed.

(** C10.  A channel built by [init] at the rate [fs_ctor] has
    [L = ceil(max_distance / 343 * fs_ctor)] slots, while [get] computes
    its delay from the global clock alone, [d = ceil(distance / 343 * fs)],
    and reads slot [(L + ix − d) mod L].  Whenever the two rates differ the
    computed delay disagrees with the contract's at some positive distance;
    the two delays agree at every distance exactly when the rates are
    equal; and a global rate high enough puts the delay of the maximum
    distance itself past the buffer length. *)
Theorem delay_agrees_iff_same_rate (max_distance_m fs_ctor fs : Qc)
    (f0 : feedback.t) :
  feedback.init max_distance_m fs_ctor = Ok f0 ->
  feedback.L f0 = ceil (max_distance_m / qz 343 * fs_ctor)%Qc
  /\ (forall x distance, 1 <= feedback.L f0 -> distance <> 0%Qc ->
      let j := (feedback.L f0 + 0 - ceil (distance / qz 343 * fs)%Qc)
                 mod feedback.L f0 in
      exists f1 v,
        (<[0%nat := x]> (feedback.xbuf f0) : list Qc) !! Z.to_nat j = Some v
        /\ feedback.get fs f0 x distance = Ok (f1, (v / distance)%Qc))
  /\ (fs_ctor <> fs ->
      exists distance, (0 < distance)%Qc
        /\ feedback.delay fs distance <> contract_delay fs_ctor distance)
  /\ (fs_ctor = fs <->
      forall distance, feedback.delay fs distance = contract_delay fs_ctor distance)
  /\ ((1 ≤ max_distance_m / qz 343 * fs - max_distance_m / qz 343 * fs_ctor)%Qc ->
      feedback.L f0 < feedback.delay fs max_distance_m).
Proof.
  intros Hinit.
  pose proof (feedback_init_inv _ _ _ Hinit) as (HLeq & _ & _ & Hix).
  split; [done|]. split.
  { intros x distance HL Hd j.
    pose proof (feedback_init_wf _ _ _ Hinit HL) as Hwf.
    destruct (feedback_get_spec fs f0 x distance Hwf Hd) as (_ & v & Hv & Hget).
    rewrite Hix in Hv, Hget. cbn in Hv. eauto. }
  split; [apply delay_disagrees|]. split.
  { split.
    - by intros ->.
    - intros Hall. destruct (decide (fs_ctor = fs)) as [|Hne]; [done|].
      destruct (delay_disagrees _ _ Hne) as (distance & _ & Hd).
      by destruct (Hd (Hall distance)). }
  intros Hgap. rewrite HLeq. by apply ceil_gap_lt.
Qed.

Lemma delay_agrees_iff_same_rate_witness :
  feedback.init (qz 5) (qz 24000) = Ok (feedback.mk 350 (replicate 350 0%Qc) 0)
  /\ (exists distance, (0 < distance)%Qc
        /\ feedback.delay (qz 44100) distance <> contract_delay (qz 24000) distance)
  /\ (1 ≤ qz 5 / qz 343 * qz 44100 - qz 5 / qz 343 * qz 24000)%Qc
  /\ 350 < feedback.delay (qz 44100) (qz 5).
Proof.
  assert (H1 : feedback.init (qz 5) (qz 24000)
               = Ok (feedback.mk 350 (replicate 350 0%Qc) 0)) by (by vm_compute).
  assert (H2 : (1 ≤ qz 5 / qz 343 * qz 44100 - qz 5 / qz 343 * qz 24000)%Qc)
    by (by vm_compute).
  pose proof (delay_agrees_iff_same_rate (qz 5) (qz 24000) (qz 44100) _ H1)
    as (_ & _ & Hdis & _ & Hexc).
  split; [exact H1|]. split; [|split; [exact H2|exact (Hexc H2)]].
  apply Hdis. by vm_compute.
Defined.

(** ** The guitar *)

(** The object [self] with its lowpass state replaced. *)
Definition set_bfs (self : guitar.t) (z : list Qc) : guitar.t :=
  guitar.mk (guitar.M self) (guitar.R self) (guitar.RM self) (guitar.ybuf self)
    (guitar.iy self) (guitar.xbuf self) (guitar.bfb self) (guitar.bfa self) z.

(** One pass of [play]'s loop body, as a function of the sample alone:
    the updated object and the output sample. *)
Definition play1 (self : guitar.t) (xn : Qc) : result (guitar.t * Qc) :=
  '(self, t) ← guitar.comb self xn;
  '(yn, zf) ← signal.lfilter (guitar.bfb self) (guitar.bfa self) t (guitar.bfs self);
  Ok (set_bfs self zf, yn).

Fixpoint play_fold (self : guitar.t) (xs : list Qc) : result (guitar.t * list Qc) :=
  match xs with
  | [] => Ok (self, [])
  | x :: xs =>
      '(self, yn) ← play1 self x;
      '(self, ys) ← play_fold self xs;
      Ok (self, yn :: ys)
  end.

(** The comb outputs [t] of successive passes over the samples [xs]. *)
Fixpoint comb_fold (self : guitar.t) (xs : list Qc) : result (guitar.t * list Qc) :=
  match xs with
  | [] => Ok (self, [])
  | x :: xs =>
      '(self, t) ← guitar.comb self x;
      '(self, ts) ← comb_fold self xs;
      Ok (self, t :: ts)
  end.

(** The lowpass [b / a] run sample by sample over [ts] from the state [z]:
    the final state and the outputs. *)
Fixpoint lowpass_fold (b a z ts : list Qc) : result (list Qc * list Qc) :=
  match ts with
  | [] => Ok (z, [])
  | t :: ts =>
      '(yn, z) ← signal.lfilter b a t z;
      '(z, ys) ← lowpass_fold b a z ts;
      Ok (z, yn :: ys)
  end.

(** A session of [play] calls, one array of samples per call. *)
Fixpoint play_seq (self : guitar.t) (calls : list (list Qc)) : result guitar.t :=
  match calls with
  | [] => Ok self
  | x :: calls => '(self, _) ← guitar.play self x; play_seq self calls
  end.

(** The comb buffer was allocated with [M] slots. *)
Definition guitar_alloc (self : guitar.t) : Prop :=
  0 <= guitar.M self /\ length (guitar.ybuf self) = Z.to_nat (guitar.M self).

(** ... and the write index is one of them. *)
Definition guitar_wf (self : guitar.t) : Prop :=
  guitar_alloc self /\ 0 <= guitar.iy self < guitar.M self.

Lemma guitar_init_inv butter (pitch fs : Qc) (g0 : guitar.t) :
  guitar.init butter pitch fs = Ok g0 ->
  pitch <> 0%Qc /\ fs <> 0%Qc
  /\ guitar.M g0 = round (fs / pitch)%Qc
  /\ guitar.R g0 = qfrac 9999 10000
  /\ guitar.RM g0 = pow (guitar.R g0) (guitar.M g0)
  /\ guitar.ybuf g0 = replicate (Z.to_nat (guitar.M g0)) 0%Qc
  /\ guitar.iy g0 = 0 /\ guitar.xbuf g0 = 0%Qc
  /\ guitar.bfs g0 = signal.lfiltic (guitar.bfb g0) (guitar.bfa g0)
  /\ guitar_alloc g0.
Proof.
  unfold guitar.init, pydiv. intros H.
  destruct (decide (pitch = 0%Qc)) as [|Hp]; [discriminate H|].
  rewrite bind_Ok_l in H. apply bind_Ok in H as (ybuf & Hy & H).
  destruct (decide (fs = 0%Qc)) as [|Hf]; [discriminate H|].
  rewrite bind_Ok_l in H. apply bind_Ok in H as ([b a] & Hb & H).
  apply Ok_inj in H. subst g0. cbn.
  apply np_zeros_inv in Hy as [HM ->].
  unfold guitar_alloc. cbn. rewrite length_replicate. done.
Qed.

(** What the comb lines do on a well-formed guitar. *)
Lemma comb_spec (self : guitar.t) (xn : Qc) :
  guitar_wf self ->
  exists yb, guitar.ybuf self !! Z.to_nat (guitar.iy self) = Some yb /\
    let t := (xn - guitar.R self * guitar.xbuf self + guitar.RM self * yb)%Qc in
    guitar.comb self xn
    = Ok (guitar.mk (guitar.M self) (guitar.R self) (guitar.RM self)
            (<[Z.to_nat (guitar.iy self) := t]> (guitar.ybuf self))
            ((guitar.iy self + 1) mod guitar.M self) xn
            (guitar.bfb self) (guitar.bfa self) (guitar.bfs self), t).
Proof.
  intros [[HM Hlen] Hiy].
  destruct (np_get_in (guitar.ybuf self) (guitar.iy self)) as (yb & Hyb & Hget);
    [lia|].
  exists yb. split; [done|]. cbn. unfold guitar.comb.
  rewrite Hget, bind_Ok_l, np_set_in, bind_Ok_l, pymod_ok by lia. done.
Qed.

(** What a successful pass of the comb lines tells about the guitar. *)
Lemma comb_inv (self self' : guitar.t) (xn t : Qc) :
  guitar.comb self xn = Ok (self', t) ->
  guitar.M self <> 0 /\ (0 < length (guitar.ybuf self))%nat
  /\ guitar.M self' = guitar.M self
  /\ length (guitar.ybuf self') = length (guitar.ybuf self)
  /\ guitar.iy self' = (guitar.iy self + 1) mod guitar.M self
  /\ guitar.xbuf self' = xn
  /\ guitar.R self' = guitar.R self /\ guitar.RM self' = guitar.RM self
  /\ guitar.bfb self' = guitar.bfb self /\ guitar.bfa self' = guitar.bfa self
  /\ guitar.bfs self' = guitar.bfs self.
Proof.
  unfold guitar.comb. intros H. inv_ok H.
  apply pymod_inv in Ha1 as [HM ->].
  pose proof (np_set_nonempty _ _ _ _ Ha0).
  apply np_set_length in Ha0.
  injection H as <- <-. cbn. done.
Qed.

Lemma comb_wf (self self' : guitar.t) (xn t : Qc) :
  guitar.comb self xn = Ok (self', t) -> guitar_alloc self -> guitar_wf self'.
Proof.
  intros (HM & Hne & HM' & Hlen' & Hiy' & _)%comb_inv [HM0 Hlen].
  unfold guitar_wf, guitar_alloc. rewrite HM', Hlen', Hiy'.
  split; [done|]. apply Z.mod_pos_bound. lia.
Qed.

Lemma comb_set_bfs (self : guitar.t) (z : list Qc) (xn : Qc) :
  guitar.comb (set_bfs self z) xn
  = '(self', t) ← guitar.comb self xn; Ok (set_bfs self' z, t).
Proof.
  unfold guitar.comb. cbn.
  destruct (np_get _ _) as [yb|]; [|done]. rewrite !bind_Ok_l.
  destruct (np_set _ _ _) as [yb'|]; [|done]. rewrite !bind_Ok_l.
  destruct (pymod _ _) as [iy'|]; [|done]. done.
Qed.

Lemma for_range_inv {S} (P : S -> Prop) (body : nat -> S -> result S) N s s' :
  for_range N body s = Ok s' -> P s ->
  (forall n st st', (n < N)%nat -> body n st = Ok st' -> P st -> P st') ->
  P s'.
Proof.
  revert s'. induction N as [|N IH]; intros s' Hrun Hs Hstep.
  - by injection Hrun as <-.
  - rewrite for_range_snoc in Hrun. apply bind_Ok in Hrun as (sN & HN & Hlast).
    eapply (Hstep N); [lia|done|]. eapply IH; [done..|].
    intros n st st' Hn. apply Hstep. lia.
Qed.

Lemma play_body_inv (x : list Qc) (n : nat) (self self' : guitar.t) (y y' : list Qc) :
  guitar.play_body x n (self, y) = Ok (self', y') ->
  exists xn g1 t yn zf,
    np_get x (Z.of_nat n) = Ok xn
    /\ guitar.comb self xn = Ok (g1, t)
    /\ signal.lfilter (guitar.bfb g1) (guitar.bfa g1) t (guitar.bfs g1) = Ok (yn, zf)
    /\ np_set y (Z.of_nat n) yn = Ok y'
    /\ self' = set_bfs g1 zf.
Proof.
  unfold guitar.play_body. intros H.
  apply bind_Ok in H as (xn & Hxn & H).
  apply bind_Ok in H as ([g1 t] & Hcomb & H).
  apply bind_Ok in H as ([yn zf] & Hlf & H).
  apply bind_Ok in H as (y1 & Hset & H).
  apply Ok_inj in H. injection H as <- <-.
  by exists xn, g1, t, yn, zf.
Qed.

Lemma play_body_wf (x : list Qc) (n : nat) (st st' : guitar.t * list Qc) :
  guitar.play_body x n st = Ok st' -> guitar_alloc st.1 ->
  guitar_wf st'.1 /\ guitar.M st'.1 = guitar.M st.1
  /\ length st'.2 = length st.2.
Proof.
  destruct st as [self y], st' as [self' y']. cbn [fst snd].
  intros (xn & g1 & t & yn & zf & _ & Hcomb & _ & Hset & ->)%play_body_inv Hal.
  pose proof (comb_wf _ _ _ _ Hcomb Hal) as Hwf.
  apply comb_inv in Hcomb as (_ & _ & HM & _).
  apply np_set_length in Hset. done.
Qed.

Lemma play_wf (self self' : guitar.t) (x y : list Qc) :
  guitar.play self x = Ok (self', y) ->
  guitar_alloc self -> guitar_wf self \/ x <> [] ->
  guitar_wf self' /\ guitar.M self' = guitar.M self /\ length y = length x.
Proof.
  unfold guitar.play. intros H Hal Hor.
  apply bind_Ok in H as (y0 & Hy0 & Hrun).
  apply np_zeros_inv in Hy0 as [_ ->]. rewrite Nat2Z.id in Hrun.
  assert (Hinv : forall N st, for_range N (guitar.play_body x)
                   (self, replicate (length x) 0%Qc) = Ok st ->
            guitar_alloc st.1 /\ (guitar_wf self \/ N <> 0%nat -> guitar_wf st.1)
            /\ guitar.M st.1 = guitar.M self /\ length st.2 = length x).
  { induction N as [|N IH]; intros st HN.
    - injection HN as <-. cbn. rewrite length_replicate.
      split_and!; [done| |done..]. intros [?|?]; done.
    - rewrite for_range_snoc in HN. apply bind_Ok in HN as (sN & HsN & Hlast).
      destruct (IH _ HsN) as (HalN & _ & HMN & HlenN).
      apply play_body_wf in Hlast as (Hwf' & HM' & Hlen'); [|done].
      split_and!; [by destruct Hwf'|done|congruence..]. }
  destruct (Hinv _ _ Hrun) as (_ & Hwf & HM & Hlen). cbn in *.
  split_and!; [|done..]. apply Hwf. destruct Hor as [?|Hne]; [by left|right].
  by destruct x.
Qed.

Lemma play_seq_wf (calls : list (list Qc)) (self self' : guitar.t) :
  play_seq self calls = Ok self' ->
  guitar_alloc self ->
  guitar_wf self \/ (exists x, x ∈ calls /\ x <> []) ->
  guitar_wf self' /\ guitar.M self' = guitar.M self.
Proof.
  revert self. induction calls as [|x calls IH]; intros self Hrun Hal Hor.
  - injection Hrun as <-. destruct Hor as [?|(x & Hx & _)]; [done|].
    by apply elem_of_nil in Hx.
  - cbn in Hrun. apply bind_Ok in Hrun as ([g1 y] & Hplay & Hrun).
    destruct (decide (x = [])) as [->|Hne].
    + unfold guitar.play in Hplay. cbn in Hplay. injection Hplay as <- <-.
      apply IH; [done..|]. destruct Hor as [?|(x & Hx & Hxne)]; [by left|right].
      exists x. split; [|done]. apply elem_of_cons in Hx as [->|?]; done.
    + apply play_wf in Hplay as (Hwf1 & HM1 & _); [|done|by right].
      destruct (IH g1 Hrun) as [Hwf' HM']; [by destruct Hwf1|by left|].
      split; [done|congruence].
Qed.

(** C9.  Write indices stay within their buffers.  For a guitar built by
    [__init__] and any session of [play] calls that returns, the index [iy]
    is in [[0, M)] (given that the buffer has a slot at all: [M ≥ 1], which
    every call that processed a sample implies); for a channel built by
    [__init__] and any session of [get] calls that returns, the index [ix]
    is in [[0, L)], and the slot a further [get] reads is
    [(L + ix − d) mod L], again in [[0, L)]. *)
Theorem indices_stay_in_bounds butter (pitch fs max_distance_m fs' clock : Qc)
    (g0 g1 : guitar.t) (f0 f1 : feedback.t)
    (plays : list (list Qc)) (gets : list (Qc * Qc)) (vs : list Qc) :
  guitar.init butter pitch fs = Ok g0 ->
  play_seq g0 plays = Ok g1 ->
  1 <= guitar.M g0 \/ (exists x, x ∈ plays /\ x <> []) ->
  feedback.init max_distance_m fs' = Ok f0 ->
  get_seq clock f0 gets = Ok (f1, vs) ->
  1 <= feedback.L f0 \/ gets <> [] ->
  (0 <= guitar.iy g1 < guitar.M g1
   /\ length (guitar.ybuf g1) = Z.to_nat (guitar.M g1))
  /\ (0 <= feedback.ix f1 < feedback.L f1
      /\ length (feedback.xbuf f1) = Z.to_nat (feedback.L f1))
  /\ (forall x distance f2 v,
        feedback.get clock f1 x distance = Ok (f2, v) ->
        let j := (feedback.L f1 + feedback.ix f1 - feedback.delay clock distance)
                   mod feedback.L f1 in
        0 <= j < feedback.L f1
        /\ feedback.ix f2 = (feedback.ix f1 + 1) mod feedback.L f1
        /\ exists u, (<[Z.to_nat (feedback.ix f1) := x]> (feedback.xbuf f1) : list Qc)
                       !! Z.to_nat j = Some u
                     /\ v = (u / distance)%Qc).
Proof.
  intros Hg0 Hplays Hg Hf0 Hgets Hf.
  pose proof (guitar_init_inv _ _ _ _ Hg0) as (_ & _ & _ & _ & _ & _ & Hiy & _ & _ & Hal).
  pose proof (feedback_init_inv _ _ _ Hf0) as (_ & HL & Hbuf & Hix).
  assert (Hgw : guitar_wf g1).
  { eapply play_seq_wf; [done..|]. destruct Hg as [HM|?]; [left|by right].
    split; [done|lia]. }
  assert (Hfw : feedback_wf f1).
  { eapply get_seq_wf; [done..| |done|done].
    rewrite Hbuf. apply length_replicate. }
  split; [by destruct Hgw as [[? ?] ?]|].
  split; [by destruct Hfw as (? & ? & ?)|].
  intros x distance f2 v Hget j.
  pose proof (feedback_get_inv _ _ _ _ _ _ Hget) as (_ & _ & Hd & _ & _ & Hix2).
  destruct (feedback_get_spec clock f1 x distance Hfw Hd) as (Hj & u & Hu & Hget').
  rewrite Hget' in Hget. apply Ok_inj in Hget. injection Hget as <- <-.
  split; [done|]. split; [done|]. eauto.
Qed.

(** When [__init__] returns: nonzero pitch and rate, a rounded period
    that is not negative, and a filter design that succeeds. *)
Lemma guitar_init_ok butter (pitch fs : Qc) (b a : list Qc) :
  pitch <> 0%Qc -> fs <> 0%Qc -> 0 <= round (fs / pitch)%Qc ->
  butter 6%nat (pymin (qfrac 1 2) (qz 5 * pitch / fs)%Qc) = Ok (b, a) ->
  guitar.init butter pitch fs
  = Ok (guitar.mk (round (fs / pitch)%Qc) (qfrac 9999 10000)
          (pow (qfrac 9999 10000) (round (fs / pitch)%Qc))
          (replicate (Z.to_nat (round (fs / pitch)%Qc)) 0%Qc) 0 0%Qc
          ((fun c => c * qz 1000)%Qc <$> b) a
          (signal.lfiltic ((fun c => c * qz 1000)%Qc <$> b) a)).
Proof.
  intros Hp Hf HM Hb. unfold guitar.init, pydiv.
  destruct (decide (pitch = 0%Qc)); [done|]. rewrite bind_Ok_l.
  rewrite np_zeros_ok by done. rewrite bind_Ok_l.
  destruct (decide (fs = 0%Qc)); [done|]. rewrite bind_Ok_l.
  by rewrite Hb.
Qed.

(** [signal.butter] at the one call the notebook makes, order 6 at the
    cutoff 11/480 (pitch 110 at 24000 Hz): the coefficients of the
    Butterworth lowpass, rounded to 18 and 12 decimals.  Scipy rejects
    cutoffs outside (0, 1); other calls are not tabulated and are reported
    like a rejected one. *)
Definition butter_A110 (order : nat) (Wn : Qc) : result (list Qc * list Qc) :=
  if decide (order = 6%nat /\ Wn = qfrac 11 480) then
    Ok ((fun n => qfrac n 1000000000000000000) <$>
          [1898165812; 11388994873; 28472487183; 37963316244;
           28472487183; 11388994873; 1898165812],
        (fun n => qfrac n 1000000000000) <$>
          [1000000000000; -5721845098504; 13647646856245; -17368798118968;
           12439155740680; -4753272175751; 757112917781])
  else Err ValueError.

Lemma butter_A110_call :
  butter_A110 6 (pymin (qfrac 1 2) (qz 5 * qz 110 / qz 24000)%Qc)
  = Ok ((fun n => qfrac n 1000000000000000000) <$>
          [1898165812; 11388994873; 28472487183; 37963316244;
           28472487183; 11388994873; 1898165812],
        (fun n => qfrac n 1000000000000) <$>
          [1000000000000; -5721845098504; 13647646856245; -17368798118968;
           12439155740680; -4753272175751; 757112917781]).
Proof.
  unfold butter_A110. rewrite decide_True; [done|].
  split; [done|]. by apply Qc_is_canon.
Qed.

(** The guitar of the last cell, [guitar(110)], with that lowpass. *)
Definition guitar_A110 : guitar.t :=
  match guitar.init butter_A110 (qz 110) (qz 24000) with
  | Ok g0 => g0
  | Err _ => guitar.mk 0 0%Qc 0%Qc [] 0 0%Qc [] [] []
  end.

Lemma guitar_A110_init :
  guitar.init butter_A110 (qz 110) (qz 24000) = Ok guitar_A110.
Proof.
  unfold guitar_A110.
  rewrite (guitar_init_ok butter_A110 (qz 110) (qz 24000) _ _
             (qz_neq_0 110 ltac:(done)) (qz_neq_0 24000 ltac:(done))
             ltac:(by vm_compute) butter_A110_call).
  reflexivity.
Qed.

Lemma guitar_A110_M : guitar.M guitar_A110 = 218.
Proof.
  pose proof (guitar_init_inv _ _ _ _ guitar_A110_init) as (_ & _ & -> & _).
  reflexivity.
Qed.


(** ** [play] sample by sample *)

Lemma np_get_middle (pre xs : list Qc) (x : Qc) :
  np_get (pre ++ x :: xs) (Z.of_nat (length pre)) = Ok x.
Proof.
  destruct (np_get_in (pre ++ x :: xs) (Z.of_nat (length pre))) as (v & Hv & ->).
  { rewrite length_app. cbn. lia. }
  rewrite Nat2Z.id, list_lookup_middle in Hv by done. by injection Hv as ->.
Qed.

Lemma np_set_middle (pre xs : list Qc) (x v : Qc) :
  np_set (pre ++ x :: xs) (Z.of_nat (length pre)) v = Ok (pre ++ v :: xs).
Proof.
  rewrite np_set_in by (rewrite length_app; cbn; lia).
  rewrite Nat2Z.id. replace (length pre) with (length pre + 0)%nat at 1 by lia.
  by rewrite insert_app_r.
Qed.

Lemma play_body_middle (pre xs ypre rest : list Qc) (x y0 : Qc) (self : guitar.t) :
  length ypre = length pre ->
  guitar.play_body (pre ++ x :: xs) (length pre) (self, ypre ++ y0 :: rest)
  = '(self', yn) ← play1 self x; Ok (self', ypre ++ yn :: rest).
Proof.
  intros Hlen. unfold guitar.play_body, play1.
  rewrite np_get_middle, bind_Ok_l.
  destruct (guitar.comb self x) as [[g1 t]|e]; [|done]. rewrite !bind_Ok_l.
  destruct (signal.lfilter _ _ _ _) as [[yn zf]|e]; [|done]. rewrite !bind_Ok_l.
  rewrite <- Hlen, np_set_middle. done.
Qed.

Lemma play_from (xs : list Qc) :
  forall (pre ypre : list Qc) (self : guitar.t),
    length ypre = length pre ->
    for_range_from (length pre) (length xs) (guitar.play_body (pre ++ xs))
      (self, ypre ++ replicate (length xs) 0%Qc)
    = '(self', ys) ← play_fold self xs; Ok (self', ypre ++ ys).
Proof.
  induction xs as [|x xs IH]; intros pre ypre self Hlen.
  - done.
  - cbn [length replicate]. rewrite for_range_from_S, play_body_middle by done.
    cbn [play_fold].
    destruct (play1 self x) as [[g1 yn]|e]; [|done]. rewrite !bind_Ok_l.
    specialize (IH (pre ++ [x]) (ypre ++ [yn]) g1).
    rewrite !length_app, <- !app_assoc in IH. cbn in IH.
    rewrite !Nat.add_1_r in IH. rewrite IH by lia.
    destruct (play_fold g1 xs) as [[g2 ys]|e]; [|done].
    by rewrite !bind_Ok_l, <- app_assoc.
Qed.

(** [play] is the fold of its loop body over the samples. *)
Lemma play_is_fold (self : guitar.t) (xs : list Qc) :
  guitar.play self xs = play_fold self xs.
Proof.
  unfold guitar.play, for_range.
  rewrite np_zeros_ok by lia. rewrite bind_Ok_l, Nat2Z.id.
  pose proof (play_from xs [] [] self eq_refl) as H. cbn in H.
  rewrite H. by destruct (play_fold self xs) as [[g1 ys]|e].
Qed.

Lemma play_fold_app (xs xs' : list Qc) (self : guitar.t) :
  play_fold self (xs ++ xs')
  = '(g1, ys) ← play_fold self xs;
    '(g2, ys') ← play_fold g1 xs';
    Ok (g2, ys ++ ys').
Proof.
  revert self. induction xs as [|x xs IH]; intros self.
  - cbn. by destruct (play_fold self xs') as [[g2 ys']|e].
  - cbn [app play_fold].
    destruct (play1 self x) as [[g1 yn]|e]; [|done]. rewrite !bind_Ok_l, IH.
    destruct (play_fold g1 xs) as [[g2 ys]|e]; [|done]. rewrite !bind_Ok_l.
    by destruct (play_fold g2 xs') as [[g3 ys']|e].
Qed.

Lemma play_single (self : guitar.t) (x : Qc) :
  guitar.play self [x] = '(self', yn) ← play1 self x; Ok (self', [yn]).
Proof.
  rewrite play_is_fold. cbn.
  by destruct (play1 self x) as [[g1 yn]|e].
Qed.

Lemma set_bfs_id (self : guitar.t) : set_bfs self (guitar.bfs self) = self.
Proof. by destruct self. Qed.

Lemma set_bfs_twice (self : guitar.t) (z z' : list Qc) :
  set_bfs (set_bfs self z) z' = set_bfs self z'.
Proof. done. Qed.

(** [play] runs the comb filter and the lowpass side by side: the comb
    never reads the lowpass state and the lowpass never the comb's. *)
Lemma play_fold_split (xs : list Qc) :
  forall (self self' : guitar.t) (z ys : list Qc),
    play_fold (set_bfs self z) xs = Ok (self', ys) ->
    exists gc ts zf,
      comb_fold self xs = Ok (gc, ts)
      /\ lowpass_fold (guitar.bfb self) (guitar.bfa self) z ts = Ok (zf, ys)
      /\ self' = set_bfs gc zf.
Proof.
  induction xs as [|x xs IH]; intros self self' z ys Hrun.
  - cbn in Hrun. apply Ok_inj in Hrun. injection Hrun as <- <-.
    by exists self, [], z.
  - cbn [play_fold] in Hrun. apply bind_Ok in Hrun as ([g1 yn] & H1 & Hrun).
    apply bind_Ok in Hrun as ([g2 ys'] & H2 & Hrun).
    apply Ok_inj in Hrun. injection Hrun as <- <-.
    unfold play1 in H1. rewrite comb_set_bfs in H1.
    destruct (guitar.comb self x) as [[gc1 t]|e] eqn:Hcomb; [|done].
    rewrite !bind_Ok_l in H1. cbn [set_bfs guitar.bfb guitar.bfa guitar.bfs] in H1.
    apply bind_Ok in H1 as ([yn' zf1] & Hlf & H1).
    apply Ok_inj in H1. injection H1 as <- <-.
    rewrite set_bfs_twice in H2.
    destruct (IH _ _ _ _ H2) as (gc & ts & zf & Hc & Hl & ->).
    pose proof (comb_inv _ _ _ _ Hcomb) as (_ & _ & _ & _ & _ & _ & _ & _ & Hb & Ha & _).
    exists gc, (t :: ts), zf. cbn [comb_fold lowpass_fold].
    rewrite Hcomb, !bind_Ok_l, Hc, !bind_Ok_l.
    rewrite <- Hb, <- Ha, Hlf, !bind_Ok_l, Hl. done.
Qed.

Lemma comb_fold_snoc (xs : list Qc) (x : Qc) :
  forall self : guitar.t,
    comb_fold self (xs ++ [x])
    = '(g1, ts) ← comb_fold self xs;
      '(g2, t) ← guitar.comb g1 x;
      Ok (g2, ts ++ [t]).
Proof.
  induction xs as [|x' xs IH]; intros self.
  - cbn. by destruct (guitar.comb self x) as [[g1 t]|e].
  - cbn [app comb_fold].
    destruct (guitar.comb self x') as [[g1 t']|e]; [|done]. rewrite !bind_Ok_l, IH.
    destruct (comb_fold g1 xs) as [[g2 ts]|e]; [|done]. rewrite !bind_Ok_l.
    by destruct (guitar.comb g2 x) as [[g3 t]|e].
Qed.

Lemma mod_sub_self (m L : Z) : 0 < L -> (m - L) mod L = m mod L.
Proof.
  intros HL. replace (m - L) with (m + (-1) * L) by lia. apply Z.mod_add. lia.
Qed.

(** The state of the comb filter after the samples [xs], started from a
    fresh guitar: the buffer holds the last [M] comb outputs, and every
    output obeys the recurrence. *)
Lemma comb_fold_recurrence (g0 : guitar.t) (xs : list Qc) :
  guitar_wf g0 -> guitar.iy g0 = 0 -> guitar.xbuf g0 = 0%Qc ->
  guitar.ybuf g0 = replicate (Z.to_nat (guitar.M g0)) 0%Qc ->
  forall (g1 : guitar.t) (ts : list Qc),
    comb_fold g0 xs = Ok (g1, ts) ->
    length ts = length xs
    /\ guitar_wf g1
    /\ guitar.M g1 = guitar.M g0 /\ guitar.R g1 = guitar.R g0
    /\ guitar.RM g1 = guitar.RM g0
    /\ guitar.iy g1 = Z.of_nat (length xs) mod guitar.M g0
    /\ guitar.xbuf g1 = ext xs (Z.of_nat (length xs) - 1)
    /\ ring_inv (guitar.M g0) (ext ts) (Z.of_nat (length xs)) (guitar.ybuf g1)
    /\ forall n, (n < length xs)%nat ->
         ts !! n = Some (ext xs (Z.of_nat n)
                         - guitar.R g0 * ext xs (Z.of_nat n - 1)
                         + guitar.RM g0 * ext ts (Z.of_nat n - guitar.M g0))%Qc.
Proof.
  intros Hwf0 Hiy0 Hx0 Hy0. pose proof Hwf0 as [[_ _] HM].
  assert (HM0 : 0 < guitar.M g0) by lia. clear HM.
  induction xs as [|x xs IH] using rev_ind; intros g1 ts Hrun.
  - cbn in Hrun. apply Ok_inj in Hrun. injection Hrun as <- <-.
    cbn [length]. rewrite Hx0, Hy0, Z.mod_0_l by lia.
    split_and!; try done.
    + apply ring_init; [done|]. apply ext_neg.
    + intros n Hn. cbn in Hn. lia.
  - rewrite comb_fold_snoc in Hrun.
    apply bind_Ok in Hrun as ([g ts0] & Hxs & Hrun).
    apply bind_Ok in Hrun as ([g2 t] & Hcomb & Hrun).
    apply Ok_inj in Hrun. injection Hrun as <- <-.
    destruct (IH _ _ Hxs) as (Hlen & Hwf & HM & HR & HRM & Hiy & Hxb & Hring & Hrec).
    destruct (comb_spec g x Hwf) as (yb & Hyb & Hstep). cbn zeta in Hstep.
    rewrite Hstep in Hcomb. apply Ok_inj in Hcomb. injection Hcomb as <- <-.
    set (n := Z.of_nat (length xs)) in *.
    set (t := (x - guitar.R g * guitar.xbuf g + guitar.RM g * yb)%Qc) in *.
    assert (Hyb' : yb = ext ts0 (n - guitar.M g0)).
    { pose proof (ring_read _ _ _ (guitar.M g0) _ Hring ltac:(lia)) as Hr.
      rewrite mod_sub_self in Hr by done. rewrite Hiy in Hyb.
      rewrite Hr in Hyb. by injection Hyb. }
    assert (Hn : Z.of_nat (length (xs ++ [x])) = n + 1).
    { rewrite length_app. cbn. lia. }
    rewrite !length_app, Hlen. cbn [length guitar.M guitar.R guitar.RM
      guitar.iy guitar.xbuf guitar.ybuf].
    replace (Z.of_nat (length xs + 1)) with (n + 1) by lia.
    split; [done|]. split.
    { unfold guitar_wf, guitar_alloc. cbn. rewrite length_insert.
      split; [by destruct Hwf|]. rewrite HM. by apply Z.mod_pos_bound. }
    split; [done|]. split; [done|]. split; [done|]. split.
    { by rewrite Hiy, HM, Zplus_mod_idemp_l. }
    split.
    { replace (n + 1 - 1) with n by lia. unfold n. by rewrite ext_snoc. }
    split.
    { rewrite Hiy.
      pose proof (ring_write (guitar.M g0) (ext ts0) (ext (ts0 ++ [t])) n
                    (guitar.ybuf g) HM0 Hring) as Hw.
      assert (Hsnoc : ext (ts0 ++ [t]) n = t).
      { unfold n. rewrite <- Hlen. apply ext_snoc. }
      rewrite Hsnoc in Hw. apply Hw.
      intros k Hk. apply ext_app_l. lia. }
    intros m Hm.
    destruct (decide (m < length xs)%nat) as [Hlt|Hge].
    + rewrite lookup_app_l by lia. rewrite Hrec by done.
      rewrite !(ext_app_l xs), !(ext_app_l ts0) by lia. done.
    + assert (m = length xs) as -> by lia.
      replace ((ts0 ++ [t]) !! length xs) with (Some t)
        by (rewrite <- Hlen; symmetry; by apply list_lookup_middle).
      fold n. assert (ext (xs ++ [x]) n = x) as -> by apply ext_snoc.
      rewrite (ext_app_l xs), (ext_app_l ts0) by (unfold n; lia).
      unfold t. by rewrite Hxb, Hyb', HR, HRM.
Qed.

(** ** Further properties of the amplifier *)

(** Order goals that also mention opposites of variables. *)
Ltac qc_order_opp :=
  unfold Qcle, Qclt, Qcopp, Q2Qc in *; cbn [this] in *;
  rewrite ?Qred_correct in *;
  change (Qred (9 # 10)) with (9 # 10)%Q in *;
  lra.

Lemma amplify1_idem (e : Qc) : amplify1 (amplify1 e) = amplify1 e.
Proof.
  rewrite !amplify1_clip. apply clip_id, clip_range.
Qed.

Lemma amplify1_opp (e : Qc) : amplify1 (- e)%Qc = (- amplify1 e)%Qc.
Proof.
  unfold amplify1. repeat case_bool_decide; try done;
    try (apply Qc_is_canon; unfold TH, qfrac in *; qc_order_opp);
    exfalso; unfold TH, qfrac in *; qc_order_opp.
Qed.

(** The clipper is idempotent, keeps the length of its input, and is odd:
    clipping the negated signal negates the clipped signal. *)
Theorem amplify_idempotent_odd (x : list Qc) :
  amplify (amplify x) = amplify x
  /\ length (amplify x) = length x
  /\ amplify (Qcopp <$> x) = Qcopp <$> amplify x.
Proof.
  rewrite !amplify_fmap. split_and!.
  - rewrite <- list_fmap_compose. apply list_fmap_ext.
    intros i e _. apply amplify1_idem.
  - apply length_fmap.
  - rewrite <- !list_fmap_compose. apply list_fmap_ext.
    intros i e _. apply amplify1_opp.
Qed.

(** ** Further properties of [play] *)

(** [play] streams: playing the concatenation of two arrays is playing
    the first and then the second on the updated guitar, the outputs
    concatenated; an exception raised in either part is the exception of
    the whole. *)
Theorem play_concat (self : guitar.t) (xs xs' : list Qc) :
  guitar.play self (xs ++ xs')
  = '(g1, ys) ← guitar.play self xs;
    '(g2, ys') ← guitar.play g1 xs';
    Ok (g2, ys ++ ys').
Proof.
  rewrite !play_is_fold, play_fold_app.
  destruct (play_fold self xs) as [[g1 ys]|e]; [|done].
  rewrite !bind_Ok_l. by rewrite play_is_fold.
Qed.

(** ** Construction of the guitar *)

Lemma Qcopp_eq_0 (q : Qc) : (- q)%Qc = 0%Qc <-> q = 0%Qc.
Proof.
  split; intros H.
  - rewrite <- (Qcopp_involutive q), H. by apply Qc_is_canon.
  - rewrite H. by apply Qc_is_canon.
Qed.

Lemma Qcdiv_opp_opp (a b : Qc) : b <> 0%Qc -> (- a / - b)%Qc = (a / b)%Qc.
Proof. intros Hb. field. split; [done|]. by rewrite Qcopp_eq_0. Qed.

(** [__init__] has no check of its own on [pitch] and [fs]; what stops a
    bad pair is the arithmetic: a zero pitch or a zero rate is a division
    by zero, and with a negative rounded period no guitar is returned (the
    buffer cannot be allocated). *)
Theorem guitar_init_errors butter (pitch fs : Qc) :
  (pitch = 0%Qc -> guitar.init butter pitch fs = Err ZeroDivisionError)
  /\ (pitch <> 0%Qc -> round (fs / pitch)%Qc < 0 ->
      forall g0, guitar.init butter pitch fs <> Ok g0)
  /\ (pitch <> 0%Qc -> fs = 0%Qc ->
      guitar.init butter pitch fs = Err ZeroDivisionError).
Proof.
  unfold guitar.init, pydiv. split_and!.
  - intros Hp. by destruct (decide (pitch = 0%Qc)).
  - intros Hp HM g0. destruct (decide (pitch = 0%Qc)); [done|].
    rewrite bind_Ok_l. unfold np_zeros. by rewrite (proj2 (Z.ltb_lt _ _) HM).
  - intros Hp Hf. destruct (decide (pitch = 0%Qc)); [done|].
    rewrite bind_Ok_l. rewrite Hf at 1. rewrite Qcdiv_0_l.
    change (round 0%Qc) with 0.
    rewrite np_zeros_ok by lia. rewrite bind_Ok_l.
    by destruct (decide (fs = 0%Qc)).
Qed.

(** Only the ratio of [fs] and [pitch] enters the construction: negating
    both gives the same guitar (or the same exception), so a negative pitch
    with a negative rate is accepted like the positive pair. *)
Theorem guitar_init_negated_pair butter (pitch fs : Qc) :
  guitar.init butter (- pitch)%Qc (- fs)%Qc = guitar.init butter pitch fs.
Proof.
  unfold guitar.init, pydiv.
  pose proof (Qcopp_eq_0 pitch) as Hp'. pose proof (Qcopp_eq_0 fs) as Hf'.
  destruct (decide (pitch = 0%Qc)) as [Hp|Hp];
    destruct (decide ((- pitch)%Qc = 0%Qc)) as [Hnp|Hnp].
  - done.
  - exfalso. tauto.
  - exfalso. tauto.
  - rewrite !bind_Ok_l, Qcdiv_opp_opp by done.
    destruct (np_zeros _) as [ybuf|e]; [|done]. rewrite !bind_Ok_l.
    destruct (decide (fs = 0%Qc)) as [Hf|Hf];
      destruct (decide ((- fs)%Qc = 0%Qc)) as [Hnf|Hnf].
    + done.
    + exfalso. tauto.
    + exfalso. tauto.
    + replace (qz 5 * - pitch / - fs)%Qc with (qz 5 * pitch / fs)%Qc
        by (field; split; [done|tauto]).
      done.
Qed.

(** ** Further properties of the feedback channel *)

(** A delay that is a multiple of the buffer length wraps onto the slot
    just written: [get] then returns its own input, divided by the
    distance, with no delay at all.  (The default channel, built for 5 m at
    24000 Hz, has 350 slots, and 5 m is a delay of 350 samples.) *)
Theorem get_full_wrap_is_zero_delay (fs : Qc) (self : feedback.t) (x distance : Qc) :
  feedback_wf self -> distance <> 0%Qc ->
  feedback.delay fs distance mod feedback.L self = 0 ->
  exists self', feedback.get fs self x distance = Ok (self', (x / distance)%Qc).
Proof.
  intros Hwf Hd Hmod. pose proof Hwf as (HL & Hlen & Hix).
  destruct (feedback_get_spec fs self x distance Hwf Hd) as (_ & v & Hv & Hget).
  assert (Hj : (feedback.L self + feedback.ix self - feedback.delay fs distance)
                 mod feedback.L self = feedback.ix self).
  { rewrite Zminus_mod, Hmod, Z.sub_0_r, Z.mod_mod by lia.
    rewrite <- (Z.mul_1_l (feedback.L self)) at 1.
    rewrite Z.add_comm, Z.mod_add by lia. apply Z.mod_small. lia. }
  rewrite Hj, list_lookup_insert_eq in Hv by lia. injection Hv as <-. eauto.
Qed.

Lemma get_full_wrap_is_zero_delay_witness :
  exists self',
    feedback.get (qz 24000) (feedback.mk 350 (replicate 350 0%Qc) 0) 1%Qc (qz 5)
    = Ok (self', (1 / qz 5)%Qc).
Proof.
  apply (get_full_wrap_is_zero_delay (qz 24000)
           (feedback.mk 350 (replicate 350 0%Qc) 0) 1%Qc (qz 5)).
  - unfold feedback_wf. cbn [feedback.L feedback.xbuf feedback.ix].
    rewrite length_replicate. lia.
  - by apply qz_neq_0.
  - reflexivity.
Defined.

(** ** When [play] cannot raise *)

(** The lowpass of the guitar can run: a leading denominator coefficient
    that is not zero and a state of the filter's order. *)
Definition lowpass_ok (self : guitar.t) : Prop :=
  (exists a0 a', guitar.bfa self = a0 :: a' /\ a0 <> 0%Qc)
  /\ length (guitar.bfs self) = signal.order (guitar.bfb self) (guitar.bfa self).

Lemma shift_length (b a z : list Qc) (x y : Qc) (i count : nat) :
  length (signal.shift b a z x y i count) = count.
Proof.
  revert i. induction count as [|c IH]; intros i; [done|].
  cbn. by rewrite IH.
Qed.

Lemma lfilter_ok (b a z : list Qc) (x a0 : Qc) (a' : list Qc) :
  a = a0 :: a' -> a0 <> 0%Qc -> length z = signal.order b a ->
  exists y zf, signal.lfilter b a x z = Ok (y, zf)
               /\ length zf = signal.order b a.
Proof.
  intros -> Ha0 Hz. unfold signal.lfilter.
  destruct (decide (a0 = 0%Qc)); [done|].
  destruct (decide (length z = signal.order b (a0 :: a'))); [|done].
  eexists _, _. split; [done|]. apply shift_length.
Qed.

Lemma play1_ok (self : guitar.t) (x : Qc) :
  guitar_wf self -> lowpass_ok self ->
  exists self' y, play1 self x = Ok (self', y)
                  /\ guitar_wf self' /\ lowpass_ok self'.
Proof.
  intros Hwf [(a0 & a' & Ha & Ha0) Hz].
  destruct (comb_spec self x Hwf) as (yb & _ & Hcomb). cbn zeta in Hcomb.
  unfold play1. rewrite Hcomb, bind_Ok_l.
  cbn [guitar.bfb guitar.bfa guitar.bfs].
  destruct (lfilter_ok (guitar.bfb self) (guitar.bfa self) (guitar.bfs self)
              (x - guitar.R self * guitar.xbuf self + guitar.RM self * yb)%Qc
              a0 a' Ha Ha0 Hz) as (y & zf & Hlf & Hzf).
  rewrite Hlf, bind_Ok_l. eexists _, _. split; [done|]. split.
  - pose proof (comb_wf _ _ _ _ Hcomb (proj1 Hwf)) as Hwf'. exact Hwf'.
  - split; [by exists a0, a'|done].
Qed.

Lemma play_fold_ok (xs : list Qc) :
  forall self : guitar.t,
    guitar_wf self -> lowpass_ok self ->
    exists self' ys, play_fold self xs = Ok (self', ys)
                     /\ guitar_wf self' /\ lowpass_ok self'.
Proof.
  induction xs as [|x xs IH]; intros self Hwf Hlp.
  - by exists self, [].
  - destruct (play1_ok self x Hwf Hlp) as (g1 & y & H1 & Hwf1 & Hlp1).
    destruct (IH g1 Hwf1 Hlp1) as (g2 & ys & H2 & Hwf2 & Hlp2).
    exists g2, (y :: ys). cbn [play_fold].
    by rewrite H1, bind_Ok_l, H2, bind_Ok_l.
Qed.

Lemma play_seq_ok (calls : list (list Qc)) :
  forall self : guitar.t,
    guitar_wf self -> lowpass_ok self ->
    exists self', play_seq self calls = Ok self'.
Proof.
  induction calls as [|x calls IH]; intros self Hwf Hlp.
  - by exists self.
  - destruct (play_fold_ok x self Hwf Hlp) as (g1 & ys & H1 & Hwf1 & Hlp1).
    destruct (IH g1 Hwf1 Hlp1) as (g2 & H2).
    exists g2. cbn [play_seq]. by rewrite play_is_fold, H1, bind_Ok_l.
Qed.

Lemma guitar_init_lowpass butter (pitch fs : Qc) (g0 : guitar.t) :
  guitar.init butter pitch fs = Ok g0 ->
  exists b, butter 6%nat (pymin (qfrac 1 2) (qz 5 * pitch / fs)%Qc)
            = Ok (b, guitar.bfa g0).
Proof.
  unfold guitar.init, pydiv. intros H.
  destruct (decide (pitch = 0%Qc)) as [|Hp]; [discriminate H|].
  rewrite bind_Ok_l in H. apply bind_Ok in H as (ybuf & Hy & H).
  destruct (decide (fs = 0%Qc)) as [|Hf]; [discriminate H|].
  rewrite bind_Ok_l in H. apply bind_Ok in H as ([b a] & Hb & H).
  apply Ok_inj in H. subst g0. cbn. eauto.
Qed.

Lemma guitar_A110_wf : guitar_wf guitar_A110.
Proof.
  pose proof (guitar_init_inv _ _ _ _ guitar_A110_init)
    as (_ & _ & _ & _ & _ & _ & Hiy & _ & _ & Hal).
  split; [done|]. rewrite Hiy, guitar_A110_M. lia.
Qed.

Lemma guitar_A110_lowpass_ok : lowpass_ok guitar_A110.
Proof.
  pose proof (guitar_init_inv _ _ _ _ guitar_A110_init)
    as (_ & _ & _ & _ & _ & _ & _ & _ & Hbfs & _).
  destruct (guitar_init_lowpass _ _ _ _ guitar_A110_init) as (b & Hb).
  rewrite butter_A110_call in Hb. apply Ok_inj in Hb.
  apply (f_equal snd) in Hb. cbn [snd] in Hb. rename Hb into Ha.
  split.
  - rewrite <- Ha. eexists _, _. split; [reflexivity|]. by vm_compute.
  - rewrite Hbfs. apply length_replicate.
Qed.

Lemma indices_stay_in_bounds_witness :
  guitar.init butter_A110 (qz 110) (qz 24000) = Ok guitar_A110
  /\ (exists g1, play_seq guitar_A110 [[1%Qc]; [0%Qc; 0%Qc]] = Ok g1
                 /\ 0 <= guitar.iy g1 < guitar.M g1)
  /\ feedback.init (qz 1) (qz 24000) = Ok channel_1m
  /\ (exists f1 vs, get_seq (qz 24000) channel_1m [(1%Qc, qz 3); (0%Qc, qfrac 1 20)]
                    = Ok (f1, vs)
                    /\ 0 <= feedback.ix f1 < feedback.L f1).
Proof.
  pose proof (play_seq_ok [[1%Qc]; [0%Qc; 0%Qc]] guitar_A110
                guitar_A110_wf guitar_A110_lowpass_ok) as Hp.
  assert (Hg : exists f1 vs, get_seq (qz 24000) channel_1m
                 [(1%Qc, qz 3); (0%Qc, qfrac 1 20)] = Ok (f1, vs)).
  { eexists _, _. vm_compute. reflexivity. }
  assert (HM : 1 <= guitar.M guitar_A110) by (rewrite guitar_A110_M; lia).
  assert (HL : 1 <= feedback.L channel_1m) by (cbn; lia).
  destruct Hp as [g1 Hp], Hg as (f1 & vs & Hg).
  pose proof (indices_stay_in_bounds butter_A110 (qz 110) (qz 24000) (qz 1)
                (qz 24000) (qz 24000) guitar_A110 g1 channel_1m f1 _ _ vs
                guitar_A110_init Hp (or_introl HM)
                channel_1m_init Hg (or_introl HL))
    as ((Hiy & _) & (Hix & _) & _).
  split; [exact guitar_A110_init|]. split; [eauto|].
  split; [exact channel_1m_init|]. eauto.
Defined.

(** ** The simulation loop *)

Lemma play_fold_length (xs : list Qc) :
  forall (self self' : guitar.t) (ys : list Qc),
    play_fold self xs = Ok (self', ys) -> length ys = length xs.
Proof.
  induction xs as [|x xs IH]; intros self self' ys H.
  - cbn in H. apply Ok_inj in H. by injection H as <- <-.
  - cbn [play_fold] in H. apply bind_Ok in H as ([g1 y1] & _ & H).
    apply bind_Ok in H as ([g2 ys'] & H2 & H).
    apply Ok_inj in H. injection H as <- <-. cbn. f_equal. by eapply IH.
Qed.

Lemma np_index_nat_inv (len n k : nat) :
  np_index len (Z.of_nat n) = Ok k -> k = n /\ (n < len)%nat.
Proof.
  unfold np_index.
  destruct (Z.leb_spec 0 (Z.of_nat n)); [|lia].
  destruct (Z.ltb_spec (Z.of_nat n) (Z.of_nat len)); cbn.
  - intros [= <-]. lia.
  - destruct (Z.leb_spec (- Z.of_nat len) (Z.of_nat n));
      destruct (Z.ltb_spec (Z.of_nat n) 0); cbn; try done; lia.
Qed.

Lemma np_set_nat_inv (a a' : list Qc) (n : nat) (v : Qc) :
  np_set a (Z.of_nat n) v = Ok a' -> (n < length a)%nat /\ a' = <[n := v]> a.
Proof.
  unfold np_set. intros H. apply bind_Ok in H as (k & Hk & H).
  apply np_index_nat_inv in Hk as [-> Hn]. apply Ok_inj in H. by subst.
Qed.

Lemma np_get_nat_inv (a : list Qc) (n : nat) (v : Qc) :
  np_get a (Z.of_nat n) = Ok v -> a !! n = Some v.
Proof.
  unfold np_get. intros H. apply bind_Ok in H as (k & Hk & H).
  apply np_index_nat_inv in Hk as [-> Hn].
  destruct (a !! n) as [w|]; [|done]. by apply Ok_inj in H as ->.
Qed.

(** One pass of the loop, read from its outcome: the feedback input is a
    single sample [xin]; the guitar plays it into [r]; [y[n]] receives the
    clipped [r]; the channel is pushed that same clipped value at the
    distance of pass [n]; and what it returns, scaled by [COUPLING_LOSS], is
    the next feedback input. *)
Lemma loop_body_inv (fs COUPLING_LOSS : Qc) (distance : nat -> Qc) (n : nat)
    (s s' : loop_state) :
  loop_body fs COUPLING_LOSS distance n s = Ok s' ->
  exists xin r fed,
    x s = [xin]
    /\ play1 (g s) xin = Ok (g s', r)
    /\ (n < length (y s))%nat
    /\ y s' = <[n := amplify1 r]> (y s)
    /\ feedback.get fs (f s) (amplify1 r) (distance n) = Ok (f s', fed)
    /\ x s' = [(COUPLING_LOSS * fed)%Qc].
Proof.
  unfold loop_body. intros H.
  apply bind_Ok in H as ([g' out] & Hplay & H).
  apply bind_Ok in H as (y' & Hset & H).
  apply bind_Ok in H as (yn & Hget & H).
  apply bind_Ok in H as ([f' fed] & Hfb & H).
  apply Ok_inj in H. subst s'. cbn [g f y x].
  rewrite play_is_fold in Hplay.
  pose proof (play_fold_length _ _ _ _ Hplay) as Hlen.
  unfold set_item_array in Hset. rewrite amplify_fmap in Hset.
  destruct out as [|r [|r' out]]; try discriminate Hset. cbn in Hset.
  destruct (x s) as [|xin [|xin' xs]]; try discriminate Hlen.
  apply np_set_nat_inv in Hset as [Hn ->].
  apply np_get_nat_inv in Hget.
  rewrite list_lookup_insert_eq in Hget by done. injection Hget as <-.
  cbn [play_fold] in Hplay.
  destruct (play1 (g s) xin) as [[g1 r1]|e] eqn:H1; [|done].
  rewrite !bind_Ok_l in Hplay. apply Ok_inj in Hplay.
  injection Hplay as Hg Hr. subst g1 r1.
  by exists xin, r, fed.
Qed.

(** A two-sample string with a pass-through lowpass and a four-slot
    channel, small enough to run the loop on by hand. *)
Definition small_guitar : guitar.t :=
  guitar.mk 2 (qfrac 9999 10000) (pow (qfrac 9999 10000) 2)
    [0%Qc; 0%Qc] 0 0%Qc [1%Qc] [1%Qc] [].

Definition small_channel : feedback.t := feedback.mk 4 (replicate 4 0%Qc) 0.

Lemma simulate_bounded (fs COUPLING_LOSS : Qc) (distance : nat -> Qc)
    (g0 : guitar.t) (f0 : feedback.t) (x0 : list Qc) (N : Z) (s : loop_state) :
  simulate fs COUPLING_LOSS distance g0 f0 x0 N = Ok s ->
  length (y s) = Z.to_nat N /\ Forall (fun v => (- TH ≤ v ≤ TH)%Qc) (y s).
Proof.
  unfold simulate. intros H. apply bind_Ok in H as (y0 & Hy0 & Hrun).
  apply np_zeros_inv in Hy0 as [HN ->].
  eapply (for_range_inv
            (fun st => length (y st) = Z.to_nat N
                       /\ Forall (fun v => (- TH ≤ v ≤ TH)%Qc) (y st)));
    [exact Hrun| |].
  - cbn [y]. split; [apply length_replicate|].
    apply Forall_replicate. by vm_compute.
  - intros n st st' _ Hbody [Hlen Hall].
    apply loop_body_inv in Hbody as (xin & r & fed & _ & _ & _ & -> & _).
    split; [by rewrite length_insert|].
    apply Forall_insert; [done|]. rewrite amplify1_clip. apply clip_range.
Qed.



(** The converse of [loop_body_inv]: how one pass is run. *)
Lemma loop_body_intro (fs COUPLING_LOSS : Qc) (distance : nat -> Qc) (n : nat)
    (s : loop_state) (xin r fed : Qc) (g' : guitar.t) (f' : feedback.t) :
  x s = [xin] ->
  play1 (g s) xin = Ok (g', r) ->
  (n < length (y s))%nat ->
  feedback.get fs (f s) (amplify1 r) (distance n) = Ok (f', fed) ->
  loop_body fs COUPLING_LOSS distance n s
  = Ok (mk_loop g' f' (<[n := amplify1 r]> (y s)) [(COUPLING_LOSS * fed)%Qc]).
Proof.
  intros Hx Hplay Hn Hget. unfold loop_body.
  rewrite Hx, play_single, Hplay, !bind_Ok_l.
  unfold set_item_array. rewrite amplify_fmap. cbn [fmap list_fmap].
  rewrite np_set_in by lia. rewrite bind_Ok_l, Nat2Z.id.
  destruct (np_get_in (<[n := amplify1 r]> (y s)) (Z.of_nat n)) as (v & Hv & ->).
  { rewrite length_insert. lia. }
  rewrite Nat2Z.id, list_lookup_insert_eq in Hv by done. injection Hv as <-.
  by rewrite bind_Ok_l, Hget, bind_Ok_l.
Qed.

(** The state after [n] passes of a run (the initial state if the run
    raised before). *)
Definition state_after (fs COUPLING_LOSS : Qc) (distance : nat -> Qc)
    (s0 : loop_state) (n : nat) : loop_state :=
  match for_range n (loop_body fs COUPLING_LOSS distance) s0 with
  | Ok s => s
  | Err _ => s0
  end.

Lemma state_after_step (fs COUPLING_LOSS : Qc) (distance : nat -> Qc)
    (s0 s : loop_state) (N n : nat) :
  for_range N (loop_body fs COUPLING_LOSS distance) s0 = Ok s ->
  (n < N)%nat ->
  loop_body fs COUPLING_LOSS distance n (state_after fs COUPLING_LOSS distance s0 n)
  = Ok (state_after fs COUPLING_LOSS distance s0 (S n)).
Proof.
  intros Hrun Hn. unfold state_after.
  destruct (for_range_prefix _ _ (S n) _ _ Hrun ltac:(lia)) as [s1 H1].
  rewrite H1. rewrite for_range_snoc in H1.
  apply bind_Ok in H1 as (sn & Hsn & Hbody). by rewrite Hsn.
Qed.

Lemma state_after_full (fs COUPLING_LOSS : Qc) (distance : nat -> Qc)
    (s0 s : loop_state) (N : nat) :
  for_range N (loop_body fs COUPLING_LOSS distance) s0 = Ok s ->
  state_after fs COUPLING_LOSS distance s0 N = s.
Proof. intros H. unfold state_after. by rewrite H. Qed.

(** A sample written at pass [n] is never overwritten by a later pass. *)
Lemma state_after_keeps (fs COUPLING_LOSS : Qc) (distance : nat -> Qc)
    (s0 s : loop_state) (N n m : nat) (v : Qc) :
  for_range N (loop_body fs COUPLING_LOSS distance) s0 = Ok s ->
  y (state_after fs COUPLING_LOSS distance s0 (S n)) !! n = Some v ->
  (n < m <= N)%nat ->
  y (state_after fs COUPLING_LOSS distance s0 m) !! n = Some v.
Proof.
  intros Hrun Hv. induction m as [|m IH]; intros Hm; [lia|].
  destruct (decide (m = n)) as [->|Hne]; [done|].
  pose proof (state_after_step _ _ _ _ _ _ m Hrun ltac:(lia)) as Hstep.
  apply loop_body_inv in Hstep as (_ & r & _ & _ & _ & _ & -> & _).
  rewrite list_lookup_insert_ne by done. apply IH. lia.
Qed.

(** The first [k] passes of a run do not depend on the length of the
    output array beyond them, nor on the distances of later passes. *)
Lemma loop_prefix (fs COUPLING_LOSS : Qc) (distance distance' : nat -> Qc)
    (g0 : guitar.t) (f0 : feedback.t) (x0 : list Qc) (N n : nat) :
  (n <= N)%nat ->
  forall (k : nat) (s : loop_state),
    (k <= n)%nat ->
    (forall i, (i < k)%nat -> distance' i = distance i) ->
    for_range k (loop_body fs COUPLING_LOSS distance)
      (mk_loop g0 f0 (replicate N 0%Qc) x0) = Ok s ->
    for_range k (loop_body fs COUPLING_LOSS distance')
      (mk_loop g0 f0 (replicate n 0%Qc) x0)
    = Ok (mk_loop (g s) (f s) (take n (y s)) (x s)).
Proof.
  intros HnN. induction k as [|k IH]; intros s Hk Hd Hrun.
  - apply Ok_inj in Hrun as <-. cbn [g f y x].
    rewrite take_replicate, Nat.min_l by done. done.
  - rewrite for_range_snoc in Hrun. apply bind_Ok in Hrun as (sk & Hsk & Hbody).
    rewrite for_range_snoc, (IH sk) by (try done; try lia; intros; apply Hd; lia).
    rewrite bind_Ok_l.
    apply loop_body_inv in Hbody
      as (xin & r & fed & Hx & Hplay & Hlen & Hy & Hget & Hx').
    rewrite (loop_body_intro fs COUPLING_LOSS distance' k _ xin r fed (g s) (f s)).
    + cbn [y]. rewrite Hy, Hx'. by rewrite take_insert_lt by lia.
    + done.
    + done.
    + cbn [y]. rewrite length_take. lia.
    + cbn [f]. rewrite Hd by lia. done.
Qed.

(** C1.  A completed run returns [N] samples, and pass [n] does exactly
    this: the one-sample feedback input goes through the guitar, the clipped
    result is [y[n]] (and stays so), that clipped value is pushed into the
    channel at the distance of pass [n], and the coupling loss times what
    comes back is the feedback input of pass [n + 1].  Nothing later is
    looked at: the first [n] outputs and the state after [n] passes are
    those of the run of [n] passes, and they are the same for every distance
    schedule that agrees on the first [n] passes. *)
Theorem loop_is_single_sample_feedback (fs COUPLING_LOSS : Qc)
    (distance : nat -> Qc) (g0 : guitar.t) (f0 : feedback.t) (x0 : list Qc)
    (N : Z) (s : loop_state) :
  simulate fs COUPLING_LOSS distance g0 f0 x0 N = Ok s ->
  let st := state_after fs COUPLING_LOSS distance
              (mk_loop g0 f0 (replicate (Z.to_nat N) 0%Qc) x0) in
  length (y s) = Z.to_nat N
  /\ st 0%nat = mk_loop g0 f0 (replicate (Z.to_nat N) 0%Qc) x0
  /\ st (Z.to_nat N) = s
  /\ (forall n, (n < Z.to_nat N)%nat ->
      exists xin r fed,
        x (st n) = [xin]
        /\ guitar.play (g (st n)) [xin] = Ok (g (st (S n)), [r])
        /\ amplify [r] = [clip TH r]
        /\ y s !! n = Some (clip TH r)
        /\ feedback.get fs (f (st n)) (clip TH r) (distance n)
           = Ok (f (st (S n)), fed)
        /\ x (st (S n)) = [(COUPLING_LOSS * fed)%Qc])
  /\ (forall n distance', (n <= Z.to_nat N)%nat ->
      (forall k, (k < n)%nat -> distance' k = distance k) ->
      exists sn,
        simulate fs COUPLING_LOSS distance' g0 f0 x0 (Z.of_nat n) = Ok sn
        /\ y sn = take n (y s)
        /\ g sn = g (st n) /\ f sn = f (st n) /\ x sn = x (st n)).
Proof.
  intros Hsim st. pose proof (simulate_bounded _ _ _ _ _ _ _ _ Hsim) as [Hlen _].
  unfold simulate in Hsim. apply bind_Ok in Hsim as (y0 & Hy0 & Hrun).
  apply np_zeros_inv in Hy0 as [HN ->].
  split; [done|]. split; [done|].
  split; [by apply state_after_full|]. split.
  - intros n Hn.
    pose proof (state_after_step _ _ _ _ _ _ n Hrun Hn) as Hstep. fold st in Hstep.
    apply loop_body_inv in Hstep
      as (xin & r & fed & Hx & Hplay & Hlt & Hy & Hget & Hx').
    exists xin, r, fed. rewrite <- amplify1_clip.
    split; [done|]. split; [by rewrite play_single, Hplay|].
    split; [by rewrite amplify_fmap|]. split; [|by split].
    rewrite <- (state_after_full _ _ _ _ _ _ Hrun).
    eapply state_after_keeps; [exact Hrun| |lia].
    fold st. rewrite Hy. by apply list_lookup_insert_eq.
  - intros n distance' Hn Hd.
    destruct (for_range_prefix _ _ n _ _ Hrun Hn) as [sn Hsn].
    pose proof (loop_prefix _ _ _ distance' _ _ _ _ n Hn n sn
                  ltac:(lia) Hd Hsn) as Hpre.
    exists (mk_loop (g sn) (f sn) (take n (y sn)) (x sn)).
    unfold simulate. rewrite np_zeros_ok by lia.
    rewrite bind_Ok_l, Nat2Z.id. split; [exact Hpre|].
    cbn [g f y x]. unfold st, state_after. rewrite Hsn.
    split; [|done].
    (* the first n samples are final after n passes *)
    apply list_eq. intros i. rewrite !lookup_take.
    destruct (decide (i < n)%nat) as [Hi|Hi]; [|done].
    pose proof (state_after_step _ _ _ _ _ _ i Hrun ltac:(lia)) as Hstep.
    apply loop_body_inv in Hstep as (_ & r & _ & _ & _ & Hlt & Hy & _).
    assert (Hv : y (state_after fs COUPLING_LOSS distance
                      (mk_loop g0 f0 (replicate (Z.to_nat N) 0%Qc) x0) (S i)) !! i
                 = Some (amplify1 r)).
    { rewrite Hy. by apply list_lookup_insert_eq. }
    pose proof (state_after_keeps _ _ _ _ _ _ _ n _ Hrun Hv ltac:(lia)) as H1.
    pose proof (state_after_keeps _ _ _ _ _ _ _ (Z.to_nat N) _ Hrun Hv ltac:(lia)) as H2.
    unfold state_after in H1 at 1. rewrite Hsn in H1.
    unfold state_after in H2 at 1. rewrite Hrun in H2. by rewrite H1, H2.
Qed.

Lemma loop_is_single_sample_feedback_witness :
  exists s,
    simulate (qz 24000) (qfrac 1 10000) (schedule (qz 24000) (qz 3) (qfrac 1 20))
      small_guitar small_channel [1%Qc] 3 = Ok s
    /\ length (y s) = 3%nat
    /\ exists sn,
         simulate (qz 24000) (qfrac 1 10000) (fun _ => qz 3)
           small_guitar small_channel [1%Qc] 2 = Ok sn
         /\ y sn = take 2 (y s).
Proof.
  assert (H : exists s,
    simulate (qz 24000) (qfrac 1 10000) (schedule (qz 24000) (qz 3) (qfrac 1 20))
      small_guitar small_channel [1%Qc] 3 = Ok s).
  { eexists. vm_compute. reflexivity. }
  destruct H as [s H]. exists s. split; [exact H|].
  pose proof (loop_is_single_sample_feedback _ _ _ _ _ _ _ _ H)
    as (Hlen & _ & _ & _ & Hpre).
  split; [exact Hlen|].
  destruct (Hpre 2%nat (fun _ => qz 3) ltac:(cbn; lia)) as (sn & Hsn & Hy & _).
  - intros k Hk. unfold schedule. destruct k as [|[|k]]; [by vm_compute..|lia].
  - exists sn. split; [exact Hsn|exact Hy].
Defined.

(** ** Construction with parameters that are not positive *)

Lemma guitar_init_opp butter (pitch fs : Qc) :
  guitar.init butter (- pitch)%Qc (- fs)%Qc = guitar.init butter pitch fs.
Proof.
  unfold guitar.init, pydiv.
  pose proof (Qcopp_eq_0 pitch) as Hp'. pose proof (Qcopp_eq_0 fs) as Hf'.
  destruct (decide (pitch = 0%Qc)) as [Hp|Hp];
    destruct (decide ((- pitch)%Qc = 0%Qc)) as [Hnp|Hnp];
    [done|exfalso; tauto|exfalso; tauto|].
  rewrite !bind_Ok_l, Qcdiv_opp_opp by done.
  destruct (np_zeros _) as [ybuf|e]; [|done]. rewrite !bind_Ok_l.
  destruct (decide (fs = 0%Qc)) as [Hf|Hf];
    destruct (decide ((- fs)%Qc = 0%Qc)) as [Hnf|Hnf];
    [done|exfalso; tauto|exfalso; tauto|].
  replace (qz 5 * - pitch / - fs)%Qc with (qz 5 * pitch / fs)%Qc
    by (field; split; [done|tauto]).
  done.
Qed.

(** C7, as stated, fails: pitch −110 with sample rate −24000 are both
    non-positive, and [guitar(-110, -24000)] is built, the same guitar as
    [guitar(110, 24000)]. *)
Lemma negative_pair_accepted :
  (qz (-110) < 0)%Qc /\ (qz (-24000) < 0)%Qc
  /\ guitar.init butter_A110 (qz (-110)) (qz (-24000)) = Ok guitar_A110.
Proof.
  split; [by vm_compute|]. split; [by vm_compute|].
  replace (qz (-110)) with (- qz 110)%Qc by (by apply Qc_is_canon).
  replace (qz (-24000)) with (- qz 24000)%Qc by (by apply Qc_is_canon).
  rewrite guitar_init_opp. apply guitar_A110_init.
Qed.

(** C7, amended.  [__init__] validates nothing itself.  A zero pitch or a
    zero sample rate stops the construction at once with a division by
    zero; a pair whose rounded period [round(fs / pitch)] is negative never
    yields a guitar; and a negative pitch with a negative sample rate is
    accepted: it builds what the positive pair builds. *)
Theorem guitar_init_nonpositive butter (pitch fs : Qc) :
  (pitch = 0%Qc \/ fs = 0%Qc ->
   guitar.init butter pitch fs = Err ZeroDivisionError)
  /\ (pitch <> 0%Qc -> round (fs / pitch)%Qc < 0 ->
      forall g0, guitar.init butter pitch fs <> Ok g0)
  /\ ((pitch < 0)%Qc -> (fs < 0)%Qc ->
      (0 < - pitch)%Qc /\ (0 < - fs)%Qc
      /\ guitar.init butter pitch fs = guitar.init butter (- pitch)%Qc (- fs)%Qc).
Proof.
  split_and!.
  - intros Hz. unfold guitar.init, pydiv.
    destruct (decide (pitch = 0%Qc)) as [|Hp]; [done|].
    destruct Hz as [?|Hf]; [done|]. rewrite bind_Ok_l. rewrite Hf at 1.
    rewrite Qcdiv_0_l. change (round 0%Qc) with 0.
    rewrite np_zeros_ok by lia. rewrite bind_Ok_l.
    by destruct (decide (fs = 0%Qc)).
  - intros Hp HM g0. unfold guitar.init, pydiv.
    destruct (decide (pitch = 0%Qc)); [done|].
    rewrite bind_Ok_l. unfold np_zeros. by rewrite (proj2 (Z.ltb_lt _ _) HM).
  - intros Hp Hf. split; [qc_to_q; lra|]. split; [qc_to_q; lra|].
    by rewrite guitar_init_opp.
Qed.

(** ** The comb stage of [play] *)

(** C4.  For a guitar built by [__init__] with pitch [P] at the rate [Fs],
    [M = round(Fs / P)], [ρ = 0.9999] and [RM = ρ^M].  A call of [play]
    that returns ran the comb lines on every sample, produced comb outputs
    [ts] that obey [t[n] = ρ^M·t[n − M] + x[n] − ρ·x[n − 1]] (samples before
    time 0 being zero), and returned the lowpass of [ts].  Each pass of the
    comb lines reads the buffer slot at the write index, stores the new
    output in that slot, advances the index modulo [M] and keeps the input
    as the previous input of the next pass. *)
Theorem comb_realizes_recurrence butter (pitch fs : Qc) (g0 g' : guitar.t)
    (xs ys : list Qc) :
  guitar.init butter pitch fs = Ok g0 ->
  guitar.play g0 xs = Ok (g', ys) ->
  let M := round (fs / pitch)%Qc in
  let rho := qfrac 9999 10000 in
  (guitar.M g0 = M /\ guitar.R g0 = rho /\ guitar.RM g0 = pow rho M
   /\ (0 <= M -> guitar.RM g0 = (rho ^ Z.to_nat M)%Qc))
  /\ (exists gc ts zf,
        comb_fold g0 xs = Ok (gc, ts)
        /\ lowpass_fold (guitar.bfb g0) (guitar.bfa g0) (guitar.bfs g0) ts
           = Ok (zf, ys)
        /\ g' = set_bfs gc zf
        /\ length ts = length xs
        /\ forall n, (n < length xs)%nat ->
             ts !! n = Some (pow rho M * ext ts (Z.of_nat n - M)
                             + ext xs (Z.of_nat n)
                             - rho * ext xs (Z.of_nat n - 1))%Qc)
  /\ (forall self xn, guitar_wf self ->
        exists yb, guitar.ybuf self !! Z.to_nat (guitar.iy self) = Some yb /\
          let t := (xn - guitar.R self * guitar.xbuf self
                    + guitar.RM self * yb)%Qc in
          exists self',
            guitar.comb self xn = Ok (self', t)
            /\ guitar.ybuf self' = <[Z.to_nat (guitar.iy self) := t]> (guitar.ybuf self)
            /\ guitar.iy self' = (guitar.iy self + 1) mod guitar.M self
            /\ guitar.xbuf self' = xn
            /\ guitar.M self' = guitar.M self).
Proof.
  intros Hinit Hplay M rho.
  pose proof (guitar_init_inv _ _ _ _ Hinit)
    as (_ & _ & HM & HR & HRM & Hybuf & Hiy & Hxbuf & _ & Hal).
  split.
  { split; [done|]. split; [done|]. rewrite HRM, HR, HM. split; [done|].
    intros HM0. unfold pow. fold M. fold rho.
    destruct (Z.leb_spec 0 M); [done|lia]. }
  split.
  - rewrite play_is_fold in Hplay. rewrite <- (set_bfs_id g0) in Hplay.
    apply play_fold_split in Hplay as (gc & ts & zf & Hcomb & Hlow & ->).
    exists gc, ts, zf. split; [done|]. split; [done|]. split; [done|].
    destruct xs as [|x xs].
    { cbn in Hcomb. apply Ok_inj in Hcomb. injection Hcomb as <- <-.
      split; [done|]. intros n Hn. cbn in Hn. lia. }
    assert (Hwf : guitar_wf g0).
    { split; [done|]. rewrite Hiy.
      cbn [comb_fold] in Hcomb. apply bind_Ok in Hcomb as ([g1 t] & Hc & _).
      apply comb_inv in Hc as (HMne & _). destruct Hal as [HM0 _]. lia. }
    destruct (comb_fold_recurrence g0 (x :: xs) Hwf Hiy Hxbuf Hybuf _ _ Hcomb)
      as (Hlen & _ & _ & _ & _ & _ & _ & _ & Hrec).
    split; [done|]. intros n Hn. rewrite (Hrec n Hn), HR, HRM, HR, HM.
    apply (f_equal Some). unfold rho, M. ring.
  - intros self xn Hwf. destruct (comb_spec self xn Hwf) as (yb & Hyb & Hc).
    exists yb. split; [done|]. cbn zeta in *. eexists. split; [exact Hc|]. done.
Qed.

Lemma comb_realizes_recurrence_witness :
  guitar.init butter_A110 (qz 110) (qz 24000) = Ok guitar_A110
  /\ exists g' ys,
       guitar.play guitar_A110 [1%Qc; 0%Qc; 0%Qc] = Ok (g', ys)
       /\ guitar.M guitar_A110 = round (qz 24000 / qz 110)%Qc
       /\ exists gc ts,
            comb_fold guitar_A110 [1%Qc; 0%Qc; 0%Qc] = Ok (gc, ts)
            /\ length ts = 3%nat.
Proof.
  split; [exact guitar_A110_init|].
  destruct (play_fold_ok [1%Qc; 0%Qc; 0%Qc] guitar_A110
              guitar_A110_wf guitar_A110_lowpass_ok) as (g' & ys & Hplay & _).
  rewrite <- play_is_fold in Hplay.
  exists g', ys. split; [exact Hplay|].
  destruct (comb_realizes_recurrence butter_A110 (qz 110) (qz 24000)
              guitar_A110 g' _ ys guitar_A110_init Hplay)
    as ((HM & _) & (gc & ts & zf & Hcomb & _ & _ & Hlen & _) & _).
  split; [exact HM|]. exists gc, ts. split; [exact Hcomb|exact Hlen].
Defined.

(** ** The loop without coupling *)

Lemma take_S_insert (l : list Qc) (n : nat) (v : Qc) :
  (n < length l)%nat -> take (S n) (<[n := v]> l) = take n l ++ [v].
Proof.
  intros Hn. rewrite (take_S_r _ _ v) by (by apply list_lookup_insert_eq).
  by rewrite take_insert_ge by lia.
Qed.

(** With [COUPLING_LOSS = 0] the guitar is fed the excitation and then
    zeros: after [n] passes it is the guitar that played the first [n]
    samples of [x0, 0, 0, ...], and the output so far is the clip of what
    it played. *)
Lemma open_loop_prefix (fs : Qc) (distance : nat -> Qc) (g0 : guitar.t)
    (f0 : feedback.t) (x0 : Qc) (N : nat) (s : loop_state) :
  for_range N (loop_body fs 0%Qc distance)
    (mk_loop g0 f0 (replicate N 0%Qc) [x0]) = Ok s ->
  forall n, (n <= N)%nat ->
    let st := state_after fs 0%Qc distance (mk_loop g0 f0 (replicate N 0%Qc) [x0]) in
    exists r,
      play_fold g0 (take n (x0 :: replicate N 0%Qc)) = Ok (g (st n), r)
      /\ take n (y (st n)) = amplify1 <$> r
      /\ length (y (st n)) = N
      /\ x (st n) = [ext (x0 :: replicate N 0%Qc) (Z.of_nat n)].
Proof.
  intros Hrun n. induction n as [|n IH]; intros Hn st.
  - exists []. unfold st, state_after. cbn.
    by rewrite length_replicate.
  - destruct (IH ltac:(lia)) as (r & Hplay & Hy & Hlen & Hx). fold st in Hplay, Hy, Hlen, Hx.
    pose proof (state_after_step _ _ _ _ _ _ n Hrun ltac:(lia)) as Hstep.
    fold st in Hstep.
    apply loop_body_inv in Hstep
      as (xin & r1 & fed & Hxin & Hp1 & Hlt & Hy' & _ & Hx').
    rewrite Hx in Hxin. injection Hxin as Hxin.
    assert (Hlk : (x0 :: replicate N 0%Qc) !! n = Some xin).
    { rewrite <- Hxin. unfold ext.
      destruct (Z.ltb_spec (Z.of_nat n) 0); [lia|]. rewrite Nat2Z.id.
      destruct (lookup_lt_is_Some_2 (x0 :: replicate N 0%Qc) n) as [w Hw].
      { cbn. rewrite length_replicate. lia. }
      by rewrite Hw. }
    exists (r ++ [r1]). split_and!.
    + rewrite (take_S_r _ _ _ Hlk), play_fold_app, Hplay, bind_Ok_l.
      cbn [play_fold]. by rewrite Hp1, !bind_Ok_l.
    + rewrite Hy', take_S_insert by done. by rewrite Hy, fmap_app.
    + by rewrite Hy', length_insert.
    + rewrite Hx', Qcmult_0_l. f_equal. unfold ext.
      destruct (Z.ltb_spec (Z.of_nat (S n)) 0); [lia|]. rewrite Nat2Z.id. cbn.
      destruct (replicate N 0%Qc !! n) as [w|] eqn:Hw; [|done].
      by apply lookup_replicate in Hw as [-> _].
Qed.

(** The first [n] samples of the signal [x0, 0, 0, ...]. *)
Definition pluck (x0 : Qc) (n : nat) : list Qc := take n (x0 :: replicate n 0%Qc).

Lemma pluck_S (x0 : Qc) (n : nat) : pluck x0 (S n) = x0 :: replicate n 0%Qc.
Proof.
  unfold pluck. change (take (S n) (x0 :: replicate (S n) 0%Qc))
    with (x0 :: take n (replicate (S n) 0%Qc)).
  by rewrite take_replicate, Nat.min_l by lia.
Qed.

(** C8, amended.  With [COUPLING_LOSS = 0] the loop is open: from the
    second pass on the feedback input is zero, and a completed run returns
    the clip of what the guitar plays when given the excitation followed by
    zeros, i.e. the clipped free response of the string (which rings on,
    see [zero_coupling_keeps_ringing]). *)
Theorem zero_coupling_is_open_loop (fs : Qc) (distance : nat -> Qc)
    (g0 : guitar.t) (f0 : feedback.t) (x0 : Qc) (N : Z) (s : loop_state) :
  simulate fs 0%Qc distance g0 f0 [x0] N = Ok s ->
  (exists r,
     guitar.play g0 (pluck x0 (Z.to_nat N)) = Ok (g s, r)
     /\ y s = amplify r)
  /\ (forall n, (1 <= n <= Z.to_nat N)%nat ->
      x (state_after fs 0%Qc distance
           (mk_loop g0 f0 (replicate (Z.to_nat N) 0%Qc) [x0]) n) = [0%Qc]).
Proof.
  intros Hsim. unfold simulate in Hsim.
  apply bind_Ok in Hsim as (y0 & Hy0 & Hrun).
  apply np_zeros_inv in Hy0 as [HN ->].
  split.
  - destruct (open_loop_prefix _ _ _ _ _ _ _ Hrun (Z.to_nat N) ltac:(lia))
      as (r & Hplay & Hy & Hlen & _).
    rewrite (state_after_full _ _ _ _ _ _ Hrun) in Hplay, Hy, Hlen.
    exists r. rewrite play_is_fold. split; [exact Hplay|].
    rewrite amplify_fmap, <- Hy. by rewrite take_ge by lia.
  - intros n Hn.
    destruct (open_loop_prefix _ _ _ _ _ _ _ Hrun n ltac:(lia))
      as (r & _ & _ & _ & Hx).
    rewrite Hx. f_equal. unfold ext.
    destruct (Z.ltb_spec (Z.of_nat n) 0); [lia|]. rewrite Nat2Z.id.
    destruct n as [|n]; [lia|]. cbn.
    destruct (replicate (Z.to_nat N) 0%Qc !! n) as [w|] eqn:Hw; [|done].
    by apply lookup_replicate in Hw as [-> _].
Qed.

Lemma zero_coupling_is_open_loop_witness :
  exists s,
    simulate (qz 24000) 0%Qc (schedule (qz 24000) (qz 3) (qfrac 1 20))
      small_guitar small_channel [1%Qc] 3 = Ok s
    /\ exists r,
         guitar.play small_guitar [1%Qc; 0%Qc; 0%Qc] = Ok (g s, r)
         /\ y s = amplify r.
Proof.
  assert (H : exists s,
    simulate (qz 24000) 0%Qc (schedule (qz 24000) (qz 3) (qfrac 1 20))
      small_guitar small_channel [1%Qc] 3 = Ok s).
  { eexists. vm_compute. reflexivity. }
  destruct H as [s H]. exists s. split; [exact H|].
  exact (proj1 (zero_coupling_is_open_loop _ _ _ _ _ _ _ H)).
Defined.
